(** * blueprint: outline parser and tree materializer (src/create.js)

    A shallow embedding of [parseLine], [buildTree], [createFolders] and the
    parsing half of [main], with the properties of the specification stated
    and proved (or refuted) over it.

    - JavaScript strings are sequences of UTF-16 code units: [list N].
    - The arrays that [buildTree] mutates through aliases held on its stack
      live in an explicit store, addressed by reference.
    - [createFolders] runs in a small state-and-exception monad over the
      console log and the file system; what it uses of the [fs] and
      [path] modules of Node is the interface [Host]. *)

From Stdlib Require Import ZArith NArith Lia String Ascii Sorted.
From stdpp Require Import base option list.

Local Open Scope Z_scope.
Local Open Scope list_scope.

(** ** JavaScript strings *)

Module Js.

(** A string is the list of its UTF-16 code units. *)
Definition jsstring := list N.

(** ASCII literals, for readable examples. *)
Fixpoint str (s : string) : jsstring :=
  match s with
  | EmptyString => []
  | String c r => N_of_ascii c :: str r
  end.

Definition TAB : N := 9.
Definition LF : N := 10.
Definition CR : N := 13.
Definition SP : N := 32.

(** The class matched by [\s] and stripped by [String.prototype.trim]:
    WhiteSpace and LineTerminator of ECMAScript (TAB, VT, FF, SP, NBSP,
    ZWNBSP and the other space separators; LF, CR, LS, PS). *)
Definition isWhiteSpace (c : N) : bool :=
  ((9 <=? c) && (c <=? 13) || (c =? 32) || (c =? 160) || (c =? 5760)
   || (8192 <=? c) && (c <=? 8202) || (c =? 8232) || (c =? 8233)
   || (c =? 8239) || (c =? 8287) || (c =? 12288) || (c =? 65279))%N.

Fixpoint takeWhile {A} (f : A -> bool) (l : list A) : list A :=
  match l with
  | [] => []
  | x :: r => if f x then x :: takeWhile f r else []
  end.

Fixpoint dropWhile {A} (f : A -> bool) (l : list A) : list A :=
  match l with
  | [] => []
  | x :: r => if f x then dropWhile f r else l
  end.

Definition trimStart (s : jsstring) : jsstring := dropWhile isWhiteSpace s.
Definition trimEnd (s : jsstring) : jsstring :=
  rev (dropWhile isWhiteSpace (rev s)).

(** [s.trim()] *)
Definition trim (s : jsstring) : jsstring := trimEnd (trimStart s).

(** Group 1 of [s.match] on the pattern "start of input, then a greedy run
    of [\s]": the longest prefix of whitespace. The pattern matches every
    string (possibly with an empty group), so [match] never gives [null]. *)
Definition leadingWhiteSpace (s : jsstring) : jsstring :=
  takeWhile isWhiteSpace s.

(** A string is falsy exactly when it is empty. *)
Definition truthy (s : jsstring) : bool :=
  match s with [] => false | _ => true end.

(** [s.split('\n')]: always at least one piece. *)
Fixpoint split_nl (s : jsstring) : list jsstring :=
  match s with
  | [] => [[]]
  | c :: r =>
      if (c =? LF)%N then [] :: split_nl r
      else match split_nl r with
           | h :: t => (c :: h) :: t
           | [] => [[c]]
           end
  end.

End Js.
Import Js.

(** ** parseLine *)

(** [{ level, content }] *)
Record parsed := Parsed { level : Z; content : jsstring }.

(** [null] for an empty or whitespace-only line, else the indent level (a
    quarter of the number of leading whitespace characters, rounded down)
    and the trimmed text. *)
Definition parseLine (line : jsstring) : option parsed :=
  if negb (truthy (trim line)) then None
  else
    let leadingSpaces := Z.of_nat (length (leadingWhiteSpace line)) in
    let level := leadingSpaces / 4 in
    let content := trim line in
    Some (Parsed level content).

(** ** buildTree: the object graph *)

(** A reference to an array of nodes. *)
Abbreviation ref := nat (only parsing).

(** [{ name, children }]: [children] is a reference to a mutable array. *)
Record node := Node { name : jsstring; children : ref }.

(** The store: the array behind each reference, in allocation order. *)
Abbreviation store := (list (list node)) (only parsing).

(** A stack entry [{ level, children }]; [children] aliases the array of the
    node the entry stands for (or the result array, for the sentinel). *)
Record frame := Frame { flevel : Z; fchildren : ref }.

Record bstate := BState { heap : store; stack : list frame }.

(** [[]]: a fresh empty array. *)
Definition alloc (h : store) : ref * store := (length h, h ++ [[]]).

(** [a.push(x)] through the reference [a]; [None] for a dangling one. *)
Definition push (a : ref) (x : node) (h : store) : option store :=
  match h !! a with
  | Some arr => Some (<[a := arr ++ [x]]> h)
  | None => None
  end.

(** [while (stack.length > 1 && stack[stack.length - 1].level >= level)
    stack.pop();] with the top of the stack at the head of the list. *)
Fixpoint unwind (lvl : Z) (st : list frame) : list frame :=
  match st with
  | top :: (_ :: _) as below =>
      if flevel top >=? lvl then unwind lvl below else st
  | _ => st
  end.

(** One iteration of the loop over the lines. [None] is a TypeError
    (reading [.children] of [undefined], were the stack empty). *)
Definition step (s : bstate) (line : jsstring) : option bstate :=
  match parseLine line with
  | None => Some s
  | Some (Parsed lvl content) =>
      let '(kids, h1) := alloc (heap s) in
      let nd := Node content kids in
      let st1 := unwind lvl (stack s) in
      top ← head st1;
      h2 ← push (fchildren top) nd h1;
      Some (BState h2 (Frame lvl kids :: st1))
  end.

Fixpoint loop (s : bstate) (lines : list jsstring) : option bstate :=
  match lines with
  | [] => Some s
  | line :: rest => s' ← step s line; loop s' rest
  end.

(** [const root = []; const stack = [{ level: -1, children: root }];] *)
Definition root : ref := 0%nat.
Definition init : bstate := BState [[]] [Frame (-1) root].

(** ** Forests as values *)

(** The tree a reference stands for once construction is over. *)
#[warnings="-register-all"] Inductive tree := T { tname : jsstring; tchildren : list tree }.

Definition forest := list tree.

(** Reading the object graph below an array. Children are allocated after
    the array that holds their parent, so a store of [n] arrays is read in
    full with fuel [n] (see [reify_fuel]). *)
Fixpoint reify (fuel : nat) (h : store) (a : ref) : forest :=
  match fuel with
  | O => []
  | S f =>
      match h !! a with
      | Some arr => map (fun nd => T (name nd) (reify f h (children nd))) arr
      | None => []
      end
  end.

(** [buildTree(lines)], returning [root] read as a forest. *)
Definition buildTree (lines : list jsstring) : option forest :=
  s ← loop init lines;
  Some (reify (length (heap s)) (heap s) root).

(** The parsing half of [main]: [buildTree(content.split('\n'))]. *)
Definition parse (text : jsstring) : option forest :=
  buildTree (split_nl text).

(** [lines.join('\n')], to write texts line by line. *)
Fixpoint joinLF (ls : list jsstring) : jsstring :=
  match ls with
  | [] => []
  | [l] => l
  | l :: r => l ++ LF :: joinLF r
  end.

(** No line feed in a piece of text: what a line of the input is. *)
Definition no_lf (l : jsstring) : bool :=
  forallb (fun c => negb (c =? LF)%N) l.

(** A line is blank when trimming leaves nothing, that is, when it holds
    whitespace only. *)
Definition blank (line : jsstring) : bool := forallb isWhiteSpace line.


(** ** The outline as the specification describes it *)

(** The Line Records of an input: one per line that is not blank, in order. *)
Definition records (lines : list jsstring) : list parsed :=
  omap parseLine lines.

(** The nearest record before position [i] whose depth is strictly smaller
    than [d], searching backwards from [i - 1]. *)
Fixpoint nearest_shallower (recs : list parsed) (d : Z) (i : nat)
  : option nat :=
  match i with
  | O => None
  | S j =>
      match recs !! j with
      | Some r => if level r <? d then Some j else nearest_shallower recs d j
      | None => nearest_shallower recs d j
      end
  end.

(** The parent of record [k]; [None] for a root. *)
Definition parent_of (recs : list parsed) (k : nat) : option nat :=
  r ← recs !! k; nearest_shallower recs (level r) k.

(** The forest below [p] (below no record, for the roots): the records whose
    parent is [p], in order of appearance, each with the forest below it. A
    child comes after its parent, so fuel beyond the number of records
    changes nothing (see [forest_under_fuel]). *)
Fixpoint forest_under (fuel : nat) (recs : list parsed) (p : option nat)
  : forest :=
  match fuel with
  | O => []
  | S f =>
      omap (fun k =>
              r ← recs !! k;
              if decide (parent_of recs k = p)
              then Some (T (content r) (forest_under f recs (Some k)))
              else None)
           (seq 0 (length recs))
  end.

Definition forest_by_parent (recs : list parsed) : forest :=
  forest_under (S (length recs)) recs None.

(** Depth-first pre-order listing of the names of a forest, siblings from
    left to right. *)
Fixpoint preorder (t : tree) : list jsstring :=
  tname t :: flat_map preorder (tchildren t).

Definition preorder_forest (f : forest) : list jsstring :=
  flat_map preorder f.

(** The depth as the specification's P1 words it: a quarter of the number
    of leading space characters (U+0020 only), rounded down. *)
Definition depth_by_spaces (line : jsstring) : Z :=
  Z.of_nat (length (takeWhile (fun c => (c =? SP)%N) line)) / 4.

(** The array that holds the children of [p]: the result array for the
    roots, and for record [j] the array allocated when its node was made
    (the [j+1]-th allocation). *)
Definition array_of (p : option nat) : ref :=
  match p with
  | None => root
  | Some j => S j
  end.

(** The stack while the tree is built: the sentinel at the bottom, above it
    the last record and its ancestors, innermost on top. *)
Inductive chain (recs : list parsed) : option nat -> list frame -> Prop :=
| chain_root : chain recs None [Frame (-1) root]
| chain_node j r st :
    recs !! j = Some r ->
    chain recs (parent_of recs j) st ->
    chain recs (Some j) (Frame (level r) (S j) :: st).

(** The nodes pushed on array [a] once the first [n] records are done. *)
Definition nodes_at (recs : list parsed) (n : nat) (a : ref) : list node :=
  omap (fun k =>
          r ← recs !! k;
          if decide (array_of (parent_of recs k) = a)
          then Some (Node (content r) (S k))
          else None)
       (seq 0 n).

(** The state of the loop after [n] records. *)
Record inv (recs : list parsed) (n : nat) (s : bstate) : Prop := Inv {
  inv_length : length (heap s) = S n;
  inv_heap : forall a, (a <= n)%nat -> heap s !! a = Some (nodes_at recs n a);
  inv_stack : chain recs (match n with O => None | S m => Some m end) (stack s)
}.

(** The forest below array [a] when only the first [m] records are in. *)
Fixpoint forest_at (fuel : nat) (recs : list parsed) (m : nat) (a : ref)
  : forest :=
  match fuel with
  | O => []
  | S f =>
      omap (fun k =>
              r ← recs !! k;
              if decide (array_of (parent_of recs k) = a)
              then Some (T (content r) (forest_at f recs m (S k)))
              else None)
           (seq 0 m)
  end.

(** The arrays on the path from record [m] up to the result array: that of
    its parent, of its grandparent, and so on. *)
Inductive spine (recs : list parsed) (m : nat) : ref -> Prop :=
| spine_parent : spine recs m (array_of (parent_of recs m))
| spine_up j : spine recs m (S j) -> spine recs m (array_of (parent_of recs j)).

(** Record [j] is strictly shallower than every record after it up to
    [m]. *)
Definition shallowest_until (recs : list parsed) (j m : nat) : Prop :=
  exists rj, recs !! j = Some rj /\
    forall k rk, (j < k <= m)%nat -> recs !! k = Some rk -> level rj < level rk.

Definition preorder_opt (o : option tree) : list jsstring :=
  match o with
  | Some t => preorder t
  | None => []
  end.

(** ** Line endings *)

(** The text without its carriage returns. *)
Definition remove_cr (s : jsstring) : jsstring :=
  List.filter (fun c => negb (c =? CR)%N) s.

(** Every line feed comes right after a carriage return ([prev] tells
    whether the character before [s] was one). *)
Fixpoint lf_after_cr (prev : bool) (s : jsstring) : bool :=
  match s with
  | [] => true
  | c :: r => (if (c =? LF)%N then prev else true) && lf_after_cr (c =? CR)%N r
  end.

(** No name in the forest holds the code unit [c]. *)
Definition names_avoid (c : N) (f : forest) : Prop :=
  Forall (fun n => c ∉ n) (preorder_forest f).

(** ** createFolders: the file system and the console *)

Abbreviation path := jsstring (only parsing).

(** How a call into the host ends: normally or with a thrown error. *)
Inductive completion := Normal | Thrown.

(** What the program uses of Node: [fs.existsSync], [fs.mkdirSync] with
    [{ recursive: true }], which may throw and may have changed the disk
    even so, and [path.join]. *)
Class Host (FS : Type) := {
  existsSync : FS -> path -> bool;
  mkdirSync : FS -> path -> FS * completion;
  join : path -> jsstring -> path
}.

(** A line of the outcome log. *)
Inductive report := Created (p : path) | Exists (p : path).

Definition report_path (r : report) : path :=
  match r with Created p | Exists p => p end.

(** The text that [console.log] prints for a report. *)
Definition render (r : report) : jsstring :=
  match r with
  | Created p => str "Created: " ++ p
  | Exists p => str "Exists:  " ++ p
  end.

(** The disk and what has been logged so far. *)
Record world (FS : Type) := World { disk : FS; console : list report }.
Arguments World {FS} _ _.
Arguments disk {FS} _.
Arguments console {FS} _.

(** Computations over the world; [None] is an uncaught exception, which
    skips whatever follows. *)
Definition M (FS A : Type) : Type := world FS -> option A * world FS.

#[global] Instance M_ret FS : MRet (M FS) := fun A a w => (Some a, w).

#[global] Instance M_bind FS : MBind (M FS) := fun A B k m w =>
  match m w with
  | (Some a, w') => k a w'
  | (None, w') => (None, w')
  end.

Section CreateFolders.
Context {FS : Type} `{Host FS}.

Definition existsM (p : path) : M FS bool :=
  fun w => (Some (existsSync (disk w) p), w).

Definition mkdirM (p : path) : M FS unit :=
  fun w =>
    let '(fs, c) := mkdirSync (disk w) p in
    (match c with Normal => Some tt | Thrown => None end,
     World fs (console w)).

Definition logM (r : report) : M FS unit :=
  fun w => (Some tt, World (disk w) (console w ++ [r])).

(** [for (const x of l) body(x)] *)
Fixpoint forEach {A} (body : A -> M FS unit) (l : list A) : M FS unit :=
  match l with
  | [] => mret tt
  | x :: r => body x ;; forEach body r
  end.

(** The body of the loop of [createFolders] for one node; the recursive
    call on [node.children] is the inner [forEach]. *)
Fixpoint createNode (node : tree) (parentPath : path) : M FS unit :=
  let folderPath := join parentPath (tname node) in
  found ← existsM folderPath;
  (if negb found
   then mkdirM folderPath ;; logM (Created folderPath)
   else logM (Exists folderPath)) ;;
  match tchildren node with
  | [] => mret tt
  | kids => forEach (fun child => createNode child folderPath) kids
  end.

Definition createFolders (nodes : forest) (parentPath : path) : M FS unit :=
  forEach (fun node => createNode node parentPath) nodes.

(** The paths of a forest under [parentPath] in depth-first pre-order,
    siblings from left to right: a node, then all of its subtree, then
    its next sibling. *)
Fixpoint node_paths (node : tree) (parentPath : path) : list path :=
  let folderPath := join parentPath (tname node) in
  folderPath :: flat_map (fun child => node_paths child folderPath)
                         (tchildren node).

Definition forest_paths (nodes : forest) (parentPath : path) : list path :=
  flat_map (fun node => node_paths node parentPath) nodes.

(** Create-or-skip for one path, and for a list of paths in turn. *)
Definition visit (p : path) : M FS unit :=
  found ← existsM p;
  if negb found then mkdirM p ;; logM (Created p) else logM (Exists p).

Definition visitAll (ps : list path) : M FS unit := forEach visit ps.
End CreateFolders.

(** What is assumed of the host: a directory made by a successful
    [mkdirSync] is there afterwards, and [mkdirSync] removes nothing,
    whether it succeeds or throws. *)
Class HostLaws (FS : Type) `{Host FS} : Prop := {
  mkdir_creates fs p fs' :
    mkdirSync fs p = (fs', Normal) -> existsSync fs' p = true;
  mkdir_keeps fs p fs' c q :
    mkdirSync fs p = (fs', c) -> existsSync fs q = true ->
    existsSync fs' q = true
}.

(** *** A small host, to run the program on *)

Module Flat.
(** The entries that exist, and the paths at which creation is refused. *)
Record disk := Disk { entries : list path; denied : list path }.

Fixpoint path_eqb (p q : path) : bool :=
  match p, q with
  | [], [] => true
  | a :: p', b :: q' => (a =? b)%N && path_eqb p' q'
  | _, _ => false
  end.

Definition mem (p : path) (l : list path) : bool := existsb (path_eqb p) l.

#[global] Instance host : Host disk := {|
  existsSync d p := mem p (entries d);
  mkdirSync d p :=
    if mem p (denied d) then (d, Thrown)
    else (Disk (p :: entries d) (denied d), Normal);
  join parent name := parent ++ str "/" ++ name
|}.

(** A sample forest, and an empty disk that refuses the given paths. *)
Definition sample : forest :=
  [T (str "a") [T (str "b") []]; T (str "c") []].

Definition fresh (refused : list path) : world disk :=
  World (Disk [] refused) [].
End Flat.

(** ** More of the outline *)

(** A record [k] levels deeper. *)
Definition deepen (k : nat) (r : parsed) : parsed :=
  Parsed (level r + Z.of_nat k) (content r).

(** The level of the frame that stands for [o]: [-1] for the sentinel. *)
Definition top_level (recs : list parsed) (o : option nat) : Z :=
  match o with
  | None => -1
  | Some j => match recs !! j with Some r => level r | None => -1 end
  end.

(** Going down the stack, levels go strictly down. *)
Definition below_is_shallower (top below : frame) : Prop :=
  flevel below < flevel top.

(** The paths that a piece of log reports as created. *)
Definition created_paths (log : list report) : list path :=
  omap (fun r => match r with Created p => Some p | Exists _ => None end) log.

(** ** main *)

(** [fs.readFileSync(p, 'utf-8')]: the content of the file, or [None] when
    the call throws. *)
Class HostRead (FS : Type) := {
  readFileSync : FS -> path -> option jsstring
}.

(** What [main] takes from the process: [process.argv], the directory of
    the script ([__dirname]) and the result of the call [process.cwd()]:
    the working directory, or [None] when the call throws (as it does when
    that directory is gone). *)
Record process := Process {
  argv : list jsstring;
  dirname : path;
  cwd : option path
}.

(** How the program ends: [main] returns, [process.exit(code)] is called,
    or an error is thrown and nothing catches it. *)
Inductive ending := Returned | Exited (code : Z) | Uncaught.

(** The status the shell sees. *)
Definition exit_status (e : ending) : Z :=
  match e with
  | Returned => 0
  | Exited code => code
  | Uncaught => 1
  end.

(** A run of the program: how it ended, the arguments of the calls to
    [console.log] and to [console.error] in order, and the disk it left. *)
Record outcome (FS : Type) := Outcome {
  ended : ending;
  logged : list jsstring;
  errored : list jsstring;
  disk_after : FS
}.
Arguments Outcome {FS} _ _ _ _.
Arguments ended {FS} _.
Arguments logged {FS} _.
Arguments errored {FS} _.
Arguments disk_after {FS} _.

(** The double quote character. *)
Definition QUOTE : N := 34.

Definition usage : list jsstring :=
  [str "Usage: blueprint create <template>";
   str "Example: blueprint create personal"].

Definition done_line : jsstring := LF :: str "Done.".

Definition banner (templateName : jsstring) (outputDir : path) : jsstring :=
  str "Blueprint: creating " ++ QUOTE :: templateName
  ++ QUOTE :: str " in " ++ outputDir ++ [LF].

(** [!templateName]: the argument is missing or empty. *)
Definition falsy (a : option jsstring) : bool :=
  match a with
  | Some s => negb (truthy s)
  | None => true
  end.

Section Main.
Context {FS : Type} `{Host FS} `{HostRead FS}.

Definition TEMPLATES_DIR (pr : process) : path :=
  join (dirname pr) (str "templates").

(** [path.join(TEMPLATES_DIR, `${templateName}.txt`)] *)
Definition templatePath (pr : process) : path :=
  join (TEMPLATES_DIR pr) (default [] (argv pr !! 3%nat) ++ str ".txt").

Definition main (pr : process) (fs : FS) : outcome FS :=
  let command := argv pr !! 2%nat in
  let templateName := argv pr !! 3%nat in
  if negb (bool_decide (command = Some (str "create"))) || falsy templateName
  then Outcome (Exited 1) [] usage fs
  else
    let name := default [] templateName in
    if negb (existsSync fs (templatePath pr))
    then Outcome (Exited 1) []
           [str "Error: Template not found: " ++ name;
            str "Looking for: " ++ templatePath pr] fs
    else
      match cwd pr with
      | None => Outcome Uncaught [] [] fs
      | Some outputDir =>
          let hello := banner name outputDir in
          match readFileSync fs (templatePath pr) with
          | None => Outcome Uncaught [hello] [] fs
          | Some content =>
              let lines := split_nl content in
              match buildTree lines with
              | None => Outcome Uncaught [hello] [] fs
              | Some tree =>
                  match createFolders tree outputDir (World fs []) with
                  | (Some _, w) =>
                      Outcome Returned
                        (hello :: (render <$> console w) ++ [done_line]) []
                        (disk w)
                  | (None, w) =>
                      Outcome Uncaught (hello :: (render <$> console w)) []
                        (disk w)
                  end
              end
          end
      end.

(** The call is well formed and its template is there. *)
Definition accepted (pr : process) (fs : FS) : bool :=
  bool_decide (argv pr !! 2%nat = Some (str "create"))
  && negb (falsy (argv pr !! 3%nat))
  && existsSync fs (templatePath pr).
End Main.

(** *** A small host with files, to run [main] on *)

Module Shelf.
(** Regular files with their content, directories, and the paths at which
    creation is refused. *)
Record disk := Disk {
  files : list (path * jsstring);
  dirs : list path;
  denied : list path
}.

Fixpoint read (p : path) (l : list (path * jsstring)) : option jsstring :=
  match l with
  | [] => None
  | (q, content) :: r => if Flat.path_eqb p q then Some content else read p r
  end.

#[global] Instance host : Host disk | 100 := {|
  existsSync d p := Flat.mem p (fst <$> files d) || Flat.mem p (dirs d);
  mkdirSync d p :=
    if Flat.mem p (denied d) then (d, Thrown)
    else (Disk (files d) (p :: dirs d) (denied d), Normal);
  join parent name := parent ++ str "/" ++ name
|}.

#[global] Instance host_read : HostRead disk | 100 := {|
  readFileSync d p := read p (files d)
|}.

(** [node create.js create personal], installed in [/app], run in [/home]. *)
Definition call : process :=
  Process [str "node"; str "create.js"; str "create"; str "personal"]
          (str "/app") (Some (str "/home")).

(** A disk with the template [personal] and, when [locked] is set, no leave
    to create the folder [b]. *)
Definition shelf (locked : bool) : disk :=
  Disk [(str "/app/templates/personal.txt",
         joinLF [str "a"; str "    b"; str "c"; []])]
       []
       (if locked then [str "/home/a/b"] else []).
End Shelf.

(** A further assumption on the host, for running the program twice:
    [mkdirSync] leaves the content of files as it is. *)
Class HostReadLaws (FS : Type) `{Host FS} `{HostRead FS} : Prop := {
  mkdir_keeps_files fs p fs' c q :
    mkdirSync fs p = (fs', c) -> readFileSync fs' q = readFileSync fs q
}.

(** ** Shapes of forests *)

(** No carriage return in a string. *)
Definition cr_free (s : jsstring) : bool :=
  forallb (fun c => negb (c =? CR)%N) s.

(** The nesting depth of every node, in pre-order, starting from [d]. *)
Fixpoint tdepths (d : nat) (t : tree) : list nat :=
  d :: flat_map (tdepths (S d)) (tchildren t).

Definition fdepths (d : nat) (f : forest) : list nat :=
  flat_map (tdepths d) f.

(** The number of ancestors of record [k]. A parent comes before its child,
    so fuel beyond [k] changes nothing. *)
Fixpoint depth_fuel (fuel : nat) (recs : list parsed) (k : nat) : nat :=
  match fuel with
  | O => O
  | S f =>
      match parent_of recs k with
      | None => O
      | Some j => S (depth_fuel f recs j)
      end
  end.

Definition depth_of (recs : list parsed) (k : nat) : nat :=
  depth_fuel (S k) recs k.

(** The depth of the children of [p]. *)
Definition child_depth (recs : list parsed) (p : option nat) : nat :=
  match p with
  | None => O
  | Some j => S (depth_of recs j)
  end.

(** The records with the same levels, named by position. *)
Definition relabel (g : nat -> jsstring) (recs : list parsed) : list parsed :=
  imap (fun k r => Parsed (level r) (g k)) recs.

Definition depth_code (d : nat) : jsstring := [N.of_nat d].

(** The nearest position before [i] whose depth is below [d]. *)
Fixpoint nearest_less (dep : nat -> nat) (d : nat) (i : nat) : option nat :=
  match i with
  | O => None
  | S j => if (dep j <? d)%nat then Some j else nearest_less dep d j
  end.

(** * Properties *)

(** ** Whitespace, trimming and the indent level *)

Section Scan.
Context {A : Type} (f : A -> bool).

Lemma takeWhile_app_stop ws c rest :
  forallb f ws = true -> f c = false -> takeWhile f (ws ++ c :: rest) = ws.
Proof.
  induction ws as [|w ws IH]; simpl; intros Hws Hc.
  - now rewrite Hc.
  - apply andb_prop in Hws as [Hw Hws]. rewrite Hw. f_equal. now apply IH.
Qed.

Lemma dropWhile_app_stop ws c rest :
  forallb f ws = true -> f c = false ->
  dropWhile f (ws ++ c :: rest) = c :: rest.
Proof.
  induction ws as [|w ws IH]; simpl; intros Hws Hc.
  - now rewrite Hc.
  - apply andb_prop in Hws as [Hw Hws]. rewrite Hw. now apply IH.
Qed.

Lemma dropWhile_snoc_stop l c :
  f c = false -> dropWhile f (l ++ [c]) = dropWhile f l ++ [c].
Proof.
  intros Hc. induction l as [|x l IH]; simpl.
  - now rewrite Hc.
  - destruct (f x); [exact IH | reflexivity].
Qed.

Lemma dropWhile_all l : forallb f l = true -> dropWhile f l = [].
Proof.
  induction l as [|x l IH]; simpl; [reflexivity|].
  intros H. apply andb_prop in H as [Hx Hl]. rewrite Hx. now apply IH.
Qed.

Lemma takeWhile_all l : forallb f l = true -> takeWhile f l = l.
Proof.
  induction l as [|x l IH]; simpl; [reflexivity|].
  intros H. apply andb_prop in H as [Hx Hl]. rewrite Hx. f_equal. now apply IH.
Qed.

Lemma take_drop_while l : takeWhile f l ++ dropWhile f l = l.
Proof.
  induction l as [|x l IH]; simpl; [reflexivity|].
  destruct (f x); simpl; [now rewrite IH | reflexivity].
Qed.

Lemma takeWhile_forallb l : forallb f (takeWhile f l) = true.
Proof.
  induction l as [|x l IH]; simpl; [reflexivity|].
  destruct (f x) eqn:E; simpl; [now rewrite E | reflexivity].
Qed.

Lemma dropWhile_head l c r : dropWhile f l = c :: r -> f c = false.
Proof.
  induction l as [|x l IH]; simpl; [discriminate|].
  destruct (f x) eqn:E; [exact IH | now intros [= <- _]].
Qed.
End Scan.

Lemma trimEnd_cons c rest :
  isWhiteSpace c = false -> trimEnd (c :: rest) = c :: trimEnd rest.
Proof.
  intros Hc. unfold trimEnd. simpl rev.
  rewrite dropWhile_snoc_stop by exact Hc.
  now rewrite rev_app_distr.
Qed.

Lemma trim_indented ws c rest :
  forallb isWhiteSpace ws = true -> isWhiteSpace c = false ->
  trim (ws ++ c :: rest) = c :: trimEnd rest.
Proof.
  intros Hws Hc. unfold trim, trimStart.
  rewrite dropWhile_app_stop by assumption. now apply trimEnd_cons.
Qed.

Lemma trim_blank line : blank line = true -> trim line = [].
Proof.
  intros H. unfold trim, trimStart. now rewrite dropWhile_all.
Qed.

Lemma parseLine_blank line : blank line = true -> parseLine line = None.
Proof. intros H. unfold parseLine. now rewrite trim_blank. Qed.

Lemma parseLine_indented ws c rest :
  forallb isWhiteSpace ws = true -> isWhiteSpace c = false ->
  parseLine (ws ++ c :: rest)
  = Some (Parsed (Z.of_nat (length ws) / 4) (c :: trimEnd rest)).
Proof.
  intros Hws Hc. unfold parseLine, leadingWhiteSpace.
  rewrite trim_indented by assumption. simpl.
  now rewrite takeWhile_app_stop.
Qed.

(** Every line is blank or indented: whitespace, then a first character that
    is not whitespace. *)
Lemma line_cases line :
  blank line = true \/
  exists ws c rest,
    line = ws ++ c :: rest /\ forallb isWhiteSpace ws = true
    /\ isWhiteSpace c = false.
Proof.
  destruct (dropWhile isWhiteSpace line) as [|c rest] eqn:E.
  - left. unfold blank. rewrite <- (take_drop_while isWhiteSpace line), E.
    rewrite app_nil_r. apply takeWhile_forallb.
  - right. exists (takeWhile isWhiteSpace line), c, rest. repeat split.
    + now rewrite <- E, take_drop_while.
    + apply takeWhile_forallb.
    + eapply dropWhile_head, E.
Qed.

Lemma parseLine_None line : parseLine line = None <-> blank line = true.
Proof.
  split; [|apply parseLine_blank].
  destruct (line_cases line) as [H | (ws & c & rest & -> & Hws & Hc)]; [easy|].
  now rewrite parseLine_indented.
Qed.

(** ** The indent level of a line *)

(** C1: the comment in [parseLine] says "Count leading spaces (4 spaces = 1
    level)" and the count is called [leadingSpaces], but the run is matched
    with [\s], so a tab counts like a space: four tabs in front of a name
    give level 1, where the leading space characters, none, give 0. *)
Lemma parseLine_four_tabs :
  parseLine ([TAB; TAB; TAB; TAB] ++ str "src") = Some (Parsed 1 (str "src"))
  /\ depth_by_spaces ([TAB; TAB; TAB; TAB] ++ str "src") = 0.
Proof. split; reflexivity. Qed.

(** Hence the level is not, for every line, a quarter of the number of
    leading space characters. *)
Lemma parseLine_tabs_counted :
  ~ (forall line p, parseLine line = Some p -> level p = depth_by_spaces line).
Proof.
  intros H.
  specialize (H ([TAB; TAB; TAB; TAB] ++ str "src")
                (Parsed 1 (str "src")) eq_refl).
  vm_compute in H. discriminate H.
Qed.

(** What the code computes: for a line made of a run [ws] of whitespace
    characters of any kind (spaces, tabs, ...) followed by a character that
    is not whitespace, the level is [floor (length ws / 4)] and the name is
    the rest of the line without its trailing whitespace. *)
Theorem parseLine_level ws c rest :
  forallb isWhiteSpace ws = true -> isWhiteSpace c = false ->
  exists p, parseLine (ws ++ c :: rest) = Some p
            /\ level p = Z.of_nat (length ws) / 4
            /\ content p = c :: trimEnd rest.
Proof.
  intros Hws Hc. eexists. split; [now apply parseLine_indented|]. now split.
Qed.

Lemma parseLine_level_witness :
  exists p, parseLine ([TAB; TAB; TAB; TAB; SP] ++ 115%N :: str "rc ") = Some p
            /\ level p = Z.of_nat 5 / 4
            /\ content p = 115%N :: trimEnd (str "rc ").
Proof. apply (parseLine_level [TAB; TAB; TAB; TAB; SP]); reflexivity. Defined.

(** Spaces alone behave as P1 says, and a line indented with [k] tabs has
    depth [floor (k / 4)]. *)
Lemma parseLine_spaces k c rest :
  isWhiteSpace c = false ->
  level <$> parseLine (repeat SP k ++ c :: rest) = Some (Z.of_nat k / 4).
Proof.
  intros Hc. rewrite parseLine_indented; [|now induction k|exact Hc].
  simpl. now rewrite repeat_length.
Qed.

Lemma parseLine_tabs k c rest :
  isWhiteSpace c = false ->
  level <$> parseLine (repeat TAB k ++ c :: rest) = Some (Z.of_nat k / 4).
Proof.
  intros Hc. rewrite parseLine_indented; [|now induction k|exact Hc].
  simpl. now rewrite repeat_length.
Qed.

(** ** Ancestry: the nearest preceding shallower record *)

Section Ancestry.
Local Open Scope nat_scope.
Variable recs : list parsed.

Lemma nearest_Some d i j :
  nearest_shallower recs d i = Some j ->
  j < i /\ exists r, recs !! j = Some r /\ (level r < d)%Z
    /\ forall k rk, j < k < i -> recs !! k = Some rk -> (d <= level rk)%Z.
Proof.
  induction i as [|i IH]; simpl; [discriminate|].
  destruct (recs !! i) as [r|] eqn:Hi.
  - destruct (Z.ltb_spec (level r) d) as [Hlt|Hge].
    + intros [= <-]. split; [lia|]. exists r. repeat split; auto. lia.
    + intros H. destruct (IH H) as (Hj & rj & Hrj & Hlt & Hbetween).
      split; [lia|]. exists rj. repeat split; auto.
      intros k rk Hk Hrk. destruct (decide (k = i)) as [->|Hne].
      * congruence.
      * apply (Hbetween k); [lia|exact Hrk].
  - intros H. destruct (IH H) as (Hj & rj & Hrj & Hlt & Hbetween).
    split; [lia|]. exists rj. repeat split; auto.
    intros k rk Hk Hrk. destruct (decide (k = i)) as [->|Hne].
    * congruence.
    * apply (Hbetween k); [lia|exact Hrk].
Qed.

Lemma nearest_None d i :
  nearest_shallower recs d i = None ->
  forall k rk, k < i -> recs !! k = Some rk -> (d <= level rk)%Z.
Proof.
  induction i as [|i IH]; simpl; [lia|].
  destruct (recs !! i) as [r|] eqn:Hi.
  - destruct (Z.ltb_spec (level r) d) as [Hlt|Hge]; [discriminate|].
    intros H k rk Hk Hrk. destruct (decide (k = i)) as [->|Hne].
    + congruence.
    + apply (IH H k); [lia|exact Hrk].
  - intros H k rk Hk Hrk. destruct (decide (k = i)) as [->|Hne].
    + congruence.
    + apply (IH H k); [lia|exact Hrk].
Qed.

(** Records at least as deep as [d'] hide nothing shallower than
    [d <= d']: the search may resume at their own nearest shallower
    record. *)
Lemma nearest_skip d d' i :
  (d <= d')%Z ->
  nearest_shallower recs d i
  = nearest_shallower recs d (array_of (nearest_shallower recs d' i)).
Proof.
  intros Hd. induction i as [|i IH]; simpl; [reflexivity|].
  destruct (recs !! i) as [r|] eqn:Hi; [|exact IH].
  destruct (Z.ltb_spec (level r) d') as [Hlt|Hge].
  - simpl. now rewrite Hi.
  - destruct (Z.ltb_spec (level r) d) as [Hlt'|_]; [lia|exact IH].
Qed.

Lemma parent_of_lt k j : parent_of recs k = Some j -> j < k.
Proof.
  unfold parent_of. destruct (recs !! k) as [r|]; simpl; [|discriminate].
  intros H. now apply nearest_Some in H.
Qed.

Lemma array_of_parent_le k : array_of (parent_of recs k) <= k.
Proof.
  destruct (parent_of recs k) as [j|] eqn:E; simpl; [|unfold root; lia].
  apply parent_of_lt in E. lia.
Qed.

Lemma array_of_inj p q : array_of p = array_of q -> p = q.
Proof. destruct p, q; simpl; unfold root; congruence. Qed.

(** *** The stack unwinds to the parent *)

Lemma chain_head o st :
  chain recs o st -> exists f below, st = f :: below /\ fchildren f = array_of o.
Proof. intros [|j r st' Hj Hst]; eauto. Qed.

Lemma unwind_chain o st d :
  chain recs o st ->
  chain recs (nearest_shallower recs d (array_of o)) (unwind d st).
Proof.
  induction 1 as [|j r st Hj Hst IH]; simpl.
  - constructor.
  - destruct (chain_head _ _ Hst) as (f & below & -> & _).
    rewrite Hj. simpl flevel.
    destruct (Z.geb_spec (level r) d) as [Hge|Hlt].
    + destruct (Z.ltb_spec (level r) d) as [?|_]; [lia|].
      rewrite (nearest_skip d (level r) j) by lia.
      unfold parent_of in IH. rewrite Hj in IH. exact IH.
    + destruct (Z.ltb_spec (level r) d) as [_|?]; [|lia].
      now apply chain_node.
Qed.
End Ancestry.

(** ** The loop of buildTree *)

Lemma omap_ext_in {A B} (f g : A -> option B) (l : list A) :
  (forall x, x ∈ l -> f x = g x) -> omap f l = omap g l.
Proof.
  induction l as [|x l IH]; intros H; [reflexivity|]. csimpl.
  rewrite (H x) by constructor.
  rewrite IH; [reflexivity|]. intros y Hy. apply H. now constructor.
Qed.

Lemma omap_none_in {A B} (f : A -> option B) (l : list A) :
  (forall x, x ∈ l -> f x = None) -> omap f l = [].
Proof.
  induction l as [|x l IH]; intros H; [reflexivity|]. csimpl.
  rewrite (H x) by constructor. apply IH. intros y Hy. apply H. now constructor.
Qed.

Section Loop.
Local Open Scope nat_scope.
Variable recs : list parsed.

Lemma nodes_at_S n a :
  nodes_at recs (S n) a
  = nodes_at recs n a
    ++ match recs !! n with
       | Some r => if decide (array_of (parent_of recs n) = a)
                   then [Node (content r) (S n)] else []
       | None => []
       end.
Proof.
  unfold nodes_at. rewrite seq_S, omap_app. f_equal. csimpl.
  destruct (recs !! n) as [r|]; simpl; [|reflexivity].
  now destruct (decide _).
Qed.

Lemma nodes_at_fresh n a : n <= a -> nodes_at recs n a = [].
Proof.
  intros Hn. apply omap_none_in. intros k Hk%elem_of_seq.
  destruct (recs !! k) as [r|]; simpl; [|reflexivity].
  destruct (decide _) as [E|]; [|reflexivity].
  pose proof (array_of_parent_le recs k). lia.
Qed.

Lemma inv_init : inv recs 0 init.
Proof.
  split; simpl; [reflexivity| |constructor].
  intros a Ha. assert (a = 0) as -> by lia. reflexivity.
Qed.

(** A record is pushed on the array of its parent, and its own array is
    the next allocation. *)
Lemma step_inv n s line r :
  inv recs n s -> parseLine line = Some r -> recs !! n = Some r ->
  exists s', step s line = Some s' /\ inv recs (S n) s'.
Proof.
  intros [Hlen Hheap Hstack] Hline Hr. unfold step. rewrite Hline.
  destruct r as [lvl name]. unfold alloc.
  pose proof (unwind_chain recs _ _ lvl Hstack) as Hchain.
  assert (array_of (match n with O => None | S m => Some m end) = n) as En
    by now destruct n.
  rewrite En in Hchain.
  assert (nearest_shallower recs lvl n = parent_of recs n) as Ep
    by (unfold parent_of; now rewrite Hr).
  rewrite Ep in Hchain.
  destruct (chain_head _ _ _ Hchain) as (top & below & Est & Htop).
  rewrite Est. simpl. rewrite Htop.
  pose proof (array_of_parent_le recs n) as Hle.
  set (a := array_of (parent_of recs n)) in *.
  unfold push. rewrite lookup_app_l by lia. rewrite (Hheap a Hle). simpl.
  eexists. split; [reflexivity|]. split; simpl.
  - rewrite length_insert, length_app. simpl. lia.
  - intros b Hb. rewrite nodes_at_S, Hr. simpl.
    destruct (decide (a = b)) as [<-|Hne].
    + rewrite list_lookup_insert_eq by (rewrite length_app; simpl; lia).
      rewrite Hlen. now rewrite decide_True by reflexivity.
    + rewrite list_lookup_insert_ne by exact Hne.
      rewrite decide_False by exact Hne. rewrite app_nil_r.
      destruct (decide (b = S n)) as [->|Hb'].
      * rewrite nodes_at_fresh by lia.
        rewrite lookup_app_r by lia. now rewrite Hlen, Nat.sub_diag.
      * rewrite lookup_app_l by lia. apply Hheap. lia.
  - rewrite Hlen, <- Est. apply (chain_node recs n (Parsed lvl name)).
    + exact Hr.
    + exact Hchain.
Qed.

Lemma loop_inv lines : forall s n,
  inv recs n s -> n <= length recs -> records lines = drop n recs ->
  exists s', loop s lines = Some s' /\ inv recs (length recs) s'.
Proof.
  induction lines as [|line rest IH]; intros s n Hinv Hn Hrecs.
  - simpl in *. exists s. split; [reflexivity|].
    symmetry in Hrecs. apply drop_nil_inv in Hrecs.
    now replace (length recs) with n by lia.
  - simpl. unfold records in Hrecs. csimpl in Hrecs.
    destruct (parseLine line) as [r|] eqn:Hline.
    + assert (recs !! n = Some r) as Hr.
      { rewrite <- (Nat.add_0_r n), <- lookup_drop, <- Hrecs. reflexivity. }
      destruct (step_inv n s line r Hinv Hline Hr) as (s1 & -> & Hinv1).
      simpl. apply (IH s1 (S n) Hinv1).
      * apply lookup_lt_Some in Hr. lia.
      * rewrite (drop_S _ _ _ Hr) in Hrecs. now injection Hrecs.
    + unfold step. rewrite Hline. simpl. now apply (IH s n).
Qed.

(** Reading the final store gives the forest of the parent relation. *)
Lemma reify_forest_under s :
  inv recs (length recs) s ->
  forall fuel p, array_of p <= length recs ->
    reify fuel (heap s) (array_of p) = forest_under fuel recs p.
Proof.
  intros [Hlen Hheap _]. induction fuel as [|fuel IH]; intros p Hp.
  - reflexivity.
  - simpl. rewrite (Hheap _ Hp). unfold nodes_at.
    change (map ?g ?l) with (g <$> l). rewrite list_fmap_omap.
    apply omap_ext_in. intros k Hk%elem_of_seq.
    destruct (recs !! k) as [r|]; simpl; [|reflexivity].
    destruct (decide (parent_of recs k = p)) as [->|Hne].
    + rewrite decide_True by reflexivity. simpl.
      now rewrite <- (IH (Some k)) by (simpl; lia).
    + rewrite decide_False; [reflexivity|].
      intros E. apply Hne. now apply array_of_inj.
Qed.
End Loop.

Lemma loop_records lines :
  exists s, loop init lines = Some s
            /\ inv (records lines) (length (records lines)) s.
Proof.
  apply (loop_inv (records lines) lines init 0).
  - apply inv_init.
  - lia.
  - reflexivity.
Qed.

Lemma buildTree_forest lines :
  buildTree lines = Some (forest_by_parent (records lines)).
Proof.
  destruct (loop_records lines) as (s & Hloop & Hinv).
  unfold buildTree. rewrite Hloop. simpl. f_equal.
  rewrite (inv_length _ _ _ Hinv).
  apply (reify_forest_under _ s Hinv (S (length (records lines))) None).
  simpl. unfold root. lia.
Qed.

(** ** Pre-order of the built forest *)

Lemma preorder_omap {A} (g : A -> option tree) (l : list A) :
  preorder_forest (omap g l) = flat_map (fun k => preorder_opt (g k)) l.
Proof.
  induction l as [|k l IH]; [reflexivity|]. csimpl.
  destruct (g k) as [t|]; simpl; [|exact IH].
  unfold preorder_forest in *. simpl. now rewrite IH.
Qed.

Lemma flat_map_ext_in {A B} (f g : A -> list B) (l : list A) :
  (forall x, x ∈ l -> f x = g x) -> flat_map f l = flat_map g l.
Proof.
  induction l as [|x l IH]; intros H; [reflexivity|]. simpl.
  rewrite (H x) by constructor. f_equal. apply IH.
  intros y Hy. apply H. now constructor.
Qed.

Lemma flat_map_nil_in {A B} (f : A -> list B) (l : list A) :
  (forall x, x ∈ l -> f x = []) -> flat_map f l = [].
Proof.
  induction l as [|x l IH]; intros H; [reflexivity|]. simpl.
  rewrite (H x) by constructor. apply IH.
  intros y Hy. apply H. now constructor.
Qed.

Section Preorder.
Local Open Scope nat_scope.
Variable recs : list parsed.

Local Abbreviation ploc k := (array_of (parent_of recs k)).

Lemma parent_Some k j rk :
  recs !! k = Some rk -> parent_of recs k = Some j ->
  j < k /\ exists rj, recs !! j = Some rj /\ (level rj < level rk)%Z
    /\ forall i ri, j < i < k -> recs !! i = Some ri ->
                    (level rk <= level ri)%Z.
Proof.
  intros Hk. unfold parent_of. rewrite Hk. simpl. apply nearest_Some.
Qed.

Lemma parent_None k rk :
  recs !! k = Some rk -> parent_of recs k = None ->
  forall i ri, i < k -> recs !! i = Some ri -> (level rk <= level ri)%Z.
Proof.
  intros Hk. unfold parent_of. rewrite Hk. simpl. apply nearest_None.
Qed.

(** Below a record that stays the shallowest, every later record has its
    parent at or after it. *)
Lemma shallowest_parent_ge j m k rk :
  shallowest_until recs j m -> j < k <= m -> recs !! k = Some rk ->
  S j <= ploc k.
Proof.
  intros (rj & Hj & Hdeep) Hk Hrk.
  pose proof (Hdeep k rk Hk Hrk) as Hlt.
  destruct (parent_of recs k) as [j'|] eqn:E; simpl.
  - destruct (parent_Some k j' rk Hrk E) as (_ & _ & _ & _ & Hbetween).
    destruct (decide (j <= j')) as [|Hn]; [lia|].
    specialize (Hbetween j rj ltac:(lia) Hj). lia.
  - pose proof (parent_None k rk Hrk E j rj ltac:(lia) Hj). lia.
Qed.

Lemma spine_shallowest m a :
  spine recs m a -> forall j rm, a = S j -> recs !! m = Some rm ->
  shallowest_until recs j m.
Proof.
  induction 1 as [|j' Hs IH]; intros j rm Ea Hm.
  - destruct (parent_of recs m) as [j0|] eqn:E; [|discriminate].
    simpl in Ea. injection Ea as ->.
    destruct (parent_Some m j rm Hm E) as (Hlt & rj & Hj & Hlv & Hbetween).
    exists rj. split; [exact Hj|]. intros k rk Hk Hrk.
    destruct (decide (k = m)) as [->|Hne].
    + replace rk with rm by congruence. exact Hlv.
    + specialize (Hbetween k rk ltac:(lia) Hrk). lia.
  - destruct (IH j' rm eq_refl Hm) as (rj' & Hj' & Hdeep).
    destruct (parent_of recs j') as [j0|] eqn:E; [|discriminate].
    simpl in Ea. injection Ea as ->.
    destruct (parent_Some j' j rj' Hj' E) as (Hlt & rj & Hj & Hlv & Hbetween).
    exists rj. split; [exact Hj|]. intros k rk Hk Hrk.
    destruct (lt_eq_lt_dec k j') as [[Hk'| ->]|Hk'].
    + specialize (Hbetween k rk ltac:(lia) Hrk). lia.
    + replace rk with rj' by congruence. exact Hlv.
    + specialize (Hdeep k rk ltac:(lia) Hrk). lia.
Qed.

Lemma spine_le m a : spine recs m a -> a <= ploc m.
Proof.
  induction 1 as [|j Hs IH]; [lia|].
  pose proof (array_of_parent_le recs j). lia.
Qed.

Lemma spine_trans m j a :
  spine recs m (S j) -> spine recs j a -> spine recs m a.
Proof.
  intros Hm. induction 1 as [|i Hs IH].
  - now apply spine_up.
  - now apply spine_up.
Qed.

(** The result array is on every spine. *)
Lemma spine_root m : spine recs m root.
Proof.
  induction m as [m IH] using lt_wf_ind.
  destruct (parent_of recs m) as [j|] eqn:E.
  - apply (spine_trans m j).
    + change (S j) with (array_of (Some j)). rewrite <- E. constructor.
    + apply IH. now apply parent_of_lt in E.
  - change root with (array_of None). rewrite <- E. constructor.
Qed.

Lemma forest_at_S fuel m a :
  forest_at (S fuel) recs (S m) a
  = omap (fun k =>
            r ← recs !! k;
            if decide (ploc k = a)
            then Some (T (content r) (forest_at fuel recs (S m) (S k)))
            else None) (seq 0 m)
    ++ match recs !! m with
       | Some r => if decide (ploc m = a)
                   then [T (content r) (forest_at fuel recs (S m) (S m))]
                   else []
       | None => []
       end.
Proof.
  cbn [forest_at]. rewrite seq_S, omap_app. f_equal. csimpl.
  destruct (recs !! m) as [r|]; simpl; [|reflexivity].
  now destruct (decide _).
Qed.

Lemma forest_at_fresh fuel m a : m <= a -> forest_at fuel recs m a = [].
Proof.
  intros Hm. destruct fuel as [|fuel]; [reflexivity|].
  apply omap_none_in. intros k Hk%elem_of_seq.
  destruct (recs !! k) as [r|]; simpl; [|reflexivity].
  destruct (decide _) as [E|]; [|reflexivity].
  pose proof (array_of_parent_le recs k). lia.
Qed.

Local Abbreviation PF m fuel a := (preorder_forest (forest_at fuel recs m a)).

(** Taking record [m] in appends its name to the listing of every array on
    its spine, and changes no other listing. *)
Lemma preorder_step m r :
  recs !! m = Some r ->
  forall fuel a, S m < fuel + a ->
    (~ spine recs m a -> PF (S m) fuel a = PF m fuel a) /\
    (spine recs m a -> PF (S m) fuel a = PF m fuel a ++ [content r]).
Proof.
  intros Hr. induction fuel as [|f IH]; intros a Hfa.
  - split; [reflexivity|]. intros Hs%spine_le.
    pose proof (array_of_parent_le recs m). lia.
  - assert (forall k, ploc k = a -> S m < f + S k) as Hfuel.
    { intros k Hk. pose proof (array_of_parent_le recs k). lia. }
    rewrite forest_at_S, Hr. rewrite (forest_at_fresh f (S m) (S m)) by lia.
    unfold preorder_forest at 1 3. rewrite flat_map_app.
    fold (preorder_forest
            (omap (fun k => r0 ← recs !! k;
                     if decide (ploc k = a)
                     then Some (T (content r0) (forest_at f recs (S m) (S k)))
                     else None) (seq 0 m))).
    rewrite preorder_omap. cbn [forest_at].
    fold (preorder_forest
            (omap (fun k => r0 ← recs !! k;
                     if decide (ploc k = a)
                     then Some (T (content r0) (forest_at f recs m (S k)))
                     else None) (seq 0 m))).
    rewrite preorder_omap.
    split.
    + intros Hns. rewrite decide_False by (intros <-; apply Hns; constructor).
      simpl. rewrite app_nil_r. apply flat_map_ext_in. intros k _.
      destruct (recs !! k) as [rk|]; simpl; [|reflexivity].
      destruct (decide (ploc k = a)) as [E|]; [|reflexivity].
      simpl. f_equal. apply IH; [now apply Hfuel|].
      intros Hs. apply Hns. rewrite <- E. now apply spine_up.
    + intros Hs. inversion Hs as [E|j Hj E].
      * rewrite decide_True by reflexivity. simpl. f_equal.
        apply flat_map_ext_in. intros k Hk%elem_of_seq.
        destruct (recs !! k) as [rk|]; simpl; [|reflexivity].
        destruct (decide (ploc k = ploc m)) as [Ek|]; [|reflexivity].
        simpl. f_equal. apply IH; [apply Hfuel; congruence|].
        intros Hsk%spine_le. pose proof (array_of_parent_le recs k). lia.
      * pose proof (spine_shallowest m _ Hj j r eq_refl Hr) as Hsh.
        pose proof (spine_le m _ Hj) as Hjm.
        pose proof (array_of_parent_le recs m) as Hm.
        pose proof (array_of_parent_le recs j) as Hpj.
        rewrite decide_False by lia. simpl. rewrite app_nil_r.
        assert (seq 0 m = seq 0 j ++ j :: seq (S j) (m - S j)) as ->.
        { replace m with (j + S (m - S j)) at 1 by lia.
          now rewrite seq_app. }
        rewrite !flat_map_app. simpl flat_map.
        destruct Hsh as (rj & Hrj & Hdeep).
        rewrite Hrj. simpl. rewrite decide_True by reflexivity. simpl.
        rewrite (flat_map_nil_in _ (seq (S j) (m - S j))).
        2:{ intros k Hk%elem_of_seq.
            destruct (recs !! k) as [rk|] eqn:Hrk; simpl; [|reflexivity].
            rewrite decide_False; [reflexivity|].
            pose proof (shallowest_parent_ge j m k rk
                          (ex_intro _ rj (conj Hrj Hdeep)) ltac:(lia) Hrk).
            lia. }
        rewrite (flat_map_nil_in _ (seq (S j) (m - S j))).
        2:{ intros k Hk%elem_of_seq.
            destruct (recs !! k) as [rk|] eqn:Hrk; simpl; [|reflexivity].
            rewrite decide_False; [reflexivity|].
            pose proof (shallowest_parent_ge j m k rk
                          (ex_intro _ rj (conj Hrj Hdeep)) ltac:(lia) Hrk).
            lia. }
        rewrite !app_nil_r, ?decide_True by reflexivity. simpl.
        fold (preorder_forest (forest_at f recs (S m) (S j))).
        fold (preorder_forest (forest_at f recs m (S j))).
        destruct (IH (S j) ltac:(lia)) as [_ IHj]. rewrite (IHj Hj).
        rewrite <- app_assoc. simpl. f_equal.
        apply flat_map_ext_in. intros k Hk%elem_of_seq.
        destruct (recs !! k) as [rk|] eqn:Hrk; simpl; [|reflexivity].
        destruct (decide (ploc k = ploc j)) as [Ek|]; [|reflexivity].
        simpl. f_equal. apply IH; [apply Hfuel; congruence|].
        intros Hsk.
        pose proof (spine_shallowest m _ Hsk k r eq_refl Hr) as Hshk.
        pose proof (shallowest_parent_ge k m j rj Hshk ltac:(lia) Hrj).
        pose proof (array_of_parent_le recs k). lia.
Qed.

(** With the first [m] records in, the listing of the result array is
    their names in order. *)
Lemma preorder_prefix m :
  m <= length recs ->
  forall fuel, m < fuel -> PF m fuel root = content <$> take m recs.
Proof.
  induction m as [|m IH]; intros Hm fuel Hfuel.
  - destruct fuel; reflexivity.
  - destruct (lookup_lt_is_Some_2 recs m ltac:(lia)) as [r Hr].
    destruct (preorder_step m r Hr fuel root ltac:(unfold root; lia))
      as [_ Hstep].
    rewrite (Hstep (spine_root m)), (IH ltac:(lia) fuel ltac:(lia)).
    rewrite (take_S_r _ _ _ Hr), fmap_app. reflexivity.
Qed.

Lemma forest_under_at fuel p :
  forest_under fuel recs p = forest_at fuel recs (length recs) (array_of p).
Proof.
  revert p. induction fuel as [|fuel IH]; intros p; [reflexivity|].
  simpl. apply omap_ext_in. intros k _.
  destruct (recs !! k) as [r|]; simpl; [|reflexivity].
  destruct (decide (parent_of recs k = p)) as [->|Hne].
  - rewrite decide_True by reflexivity. now rewrite IH.
  - rewrite decide_False; [reflexivity|].
    intros E. apply Hne. now apply array_of_inj.
Qed.

Lemma preorder_forest_by_parent :
  preorder_forest (forest_by_parent recs) = content <$> recs.
Proof.
  unfold forest_by_parent. rewrite forest_under_at.
  change (array_of None) with root.
  rewrite preorder_prefix by lia. now rewrite firstn_all.
Qed.

(** Fuel beyond what the remaining records can nest is idle. *)
Lemma forest_at_fuel m : forall fuel a,
  m < fuel + a -> forest_at (S fuel) recs m a = forest_at fuel recs m a.
Proof.
  induction fuel as [|fuel IH]; intros a Ha.
  - now rewrite forest_at_fresh by lia.
  - simpl. apply omap_ext_in. intros k _.
    destruct (recs !! k) as [r|]; simpl; [|reflexivity].
    destruct (decide _) as [E|]; [|reflexivity].
    do 2 f_equal. apply (IH (S k)).
    pose proof (array_of_parent_le recs k). lia.
Qed.

Lemma forest_under_fuel fuel p :
  length recs < fuel ->
  forest_under fuel recs p = forest_under (S (length recs)) recs p.
Proof.
  intros H. rewrite !forest_under_at.
  induction H as [|fuel Hle IH]; [reflexivity|].
  rewrite forest_at_fuel; [exact IH|]. unfold lt in Hle. lia.
Qed.
End Preorder.

(** ** The parser: ancestry, order, totality, blank lines *)

(** C2: in the forest built by [buildTree], the children of a record are
    exactly the later records whose nearest preceding record of strictly
    smaller depth it is, and the roots are the records with no shallower
    record before them; no condition bears on the size of a depth jump. In
    the object graph, the node of each record sits in the array of that
    parent (the result array for a root). *)
Theorem buildTree_ancestry lines :
  buildTree lines = Some (forest_by_parent (records lines))
  /\ exists s, loop init lines = Some s
       /\ forall k r, records lines !! k = Some r ->
            exists arr,
              heap s !! array_of (parent_of (records lines) k) = Some arr
              /\ Node (content r) (S k) ∈ arr.
Proof.
  split; [apply buildTree_forest|].
  destruct (loop_records lines) as (s & Hloop & Hinv).
  exists s. split; [exact Hloop|]. intros k r Hk.
  pose proof (lookup_lt_Some _ _ _ Hk) as Hlt.
  pose proof (array_of_parent_le (records lines) k) as Hle.
  eexists. split; [apply (inv_heap _ _ _ Hinv); lia|].
  apply list_elem_of_omap. exists k. split.
  - apply elem_of_seq. lia.
  - rewrite Hk. simpl. now rewrite decide_True by reflexivity.
Qed.

(** Scenario 4: depth 0 followed directly by depth 2. *)
Example scenario4_depth_jump :
  parse (joinLF [str "a"; str "        b"; []])
  = Some [T (str "a") [T (str "b") []]].
Proof. reflexivity. Qed.

(** A first line that is indented is a root all the same. *)
Example indented_first_line :
  parse (joinLF [str "    a"; str "b"]) = Some [T (str "a") []; T (str "b") []].
Proof. reflexivity. Qed.

Lemma reify_fuel lines s fuel :
  loop init lines = Some s -> (length (heap s) <= fuel)%nat ->
  reify fuel (heap s) root = reify (length (heap s)) (heap s) root.
Proof.
  intros Hs Hfuel. destruct (loop_records lines) as (s' & Hs' & Hinv).
  replace s' with s in * by congruence.
  pose proof (inv_length _ _ _ Hinv) as Hlen.
  change root with (array_of None).
  rewrite !(reify_forest_under _ s Hinv) by (simpl; unfold root; lia).
  rewrite Hlen. apply forest_under_fuel. lia.
Qed.

(** C7: parsing never fails; every text has a forest. *)
Theorem parse_total text : exists f, parse text = Some f.
Proof. unfold parse. rewrite buildTree_forest. eauto. Qed.

Lemma omap_lookup_seq {A B} (f : A -> B) (l : list A) :
  omap (fun k => f <$> l !! k) (seq 0 (length l)) = f <$> l.
Proof.
  induction l as [|x l IH] using rev_ind; [reflexivity|].
  rewrite length_app. simpl length. rewrite Nat.add_1_r, seq_S, omap_app.
  rewrite fmap_app. f_equal.
  - rewrite <- IH. apply omap_ext_in. intros k Hk%elem_of_seq.
    now rewrite lookup_app_l by lia.
  - csimpl. rewrite lookup_app_r by lia. now rewrite Nat.sub_diag.
Qed.

Lemma nearest_shallower_flat recs d i :
  Forall (fun r => d <= level r) recs -> nearest_shallower recs d i = None.
Proof.
  intros H. induction i as [|i IH]; simpl; [reflexivity|].
  destruct (recs !! i) as [r|] eqn:Hi; [|exact IH].
  pose proof (proj1 (Forall_forall _ _) H r (list_elem_of_lookup_2 _ _ _ Hi)).
  simpl in *. destruct (Z.ltb_spec (level r) d); [lia|exact IH].
Qed.

(** X11: when no line is indented by four or more, every line that is not
    blank is a root without children (the flat forest that C7 calls the
    worst case). *)
Lemma buildTree_all_roots lines :
  Forall (fun r => level r = 0) (records lines) ->
  buildTree lines
  = Some ((fun r => T (content r) []) <$> records lines).
Proof.
  intros H. rewrite buildTree_forest. f_equal.
  set (recs := records lines) in *.
  assert (forall k, parent_of recs k = None) as Hroot.
  { intros k. unfold parent_of. destruct (recs !! k) as [r|] eqn:Hk; [|reflexivity].
    simpl. apply nearest_shallower_flat.
    pose proof (proj1 (Forall_forall _ _) H r (list_elem_of_lookup_2 _ _ _ Hk)) as Hr.
    simpl in Hr. rewrite Hr. eapply Forall_impl; [exact H|].
    intros r' Hr'. simpl in Hr'. lia. }
  unfold forest_by_parent. cbn [forest_under].
  rewrite <- omap_lookup_seq. apply omap_ext_in. intros k _.
  destruct (recs !! k) as [r|]; simpl; [|reflexivity].
  rewrite decide_True by apply Hroot. do 2 f_equal.
  destruct (length recs) as [|n]; [reflexivity|]. cbn [forest_under].
  apply omap_none_in. intros j _.
  destruct (recs !! j) as [rj|]; simpl; [|reflexivity].
  rewrite decide_False; [reflexivity|]. now rewrite Hroot.
Qed.

Lemma parseLine_content line p : parseLine line = Some p -> content p = trim line.
Proof.
  unfold parseLine. destruct (negb _); [discriminate|]. now intros [= <-].
Qed.

Lemma content_records lines :
  content <$> records lines
  = trim <$> List.filter (fun l => negb (blank l)) lines.
Proof.
  induction lines as [|line rest IH]; [reflexivity|].
  unfold records in *. csimpl.
  destruct (parseLine line) as [p|] eqn:E.
  - destruct (blank line) eqn:B.
    + apply parseLine_blank in B. congruence.
    + csimpl. f_equal; [now apply parseLine_content|exact IH].
  - apply parseLine_None in E. rewrite E. exact IH.
Qed.

(** C9: the forest has one node per line that is not blank, and its
    pre-order listing is the trimmed text of those lines in input order. *)
Theorem buildTree_preorder lines :
  exists f, buildTree lines = Some f
            /\ preorder_forest f
               = trim <$> List.filter (fun l => negb (blank l)) lines.
Proof.
  exists (forest_by_parent (records lines)). split.
  - apply buildTree_forest.
  - rewrite preorder_forest_by_parent. apply content_records.
Qed.

Lemma records_app l1 l2 : records (l1 ++ l2) = records l1 ++ records l2.
Proof. apply omap_app. Qed.

(** C8: a blank line leaves the loop state as it is, and putting one in or
    taking one out anywhere leaves the forest unchanged. *)
Theorem blank_line_skipped b :
  blank b = true ->
  (forall s, step s b = Some s)
  /\ forall l1 l2, buildTree (l1 ++ b :: l2) = buildTree (l1 ++ l2).
Proof.
  intros Hb. apply parseLine_blank in Hb. split.
  - intros s. unfold step. now rewrite Hb.
  - intros l1 l2. rewrite !buildTree_forest. do 2 f_equal.
    rewrite !records_app. f_equal. unfold records. csimpl. now rewrite Hb.
Qed.

Lemma blank_line_skipped_witness :
  (forall s, step s [SP; TAB] = Some s)
  /\ forall l1 l2, buildTree (l1 ++ [SP; TAB] :: l2) = buildTree (l1 ++ l2).
Proof. apply (blank_line_skipped [SP; TAB]). reflexivity. Defined.

Lemma split_nl_line l s :
  no_lf l = true -> split_nl (l ++ LF :: s) = l :: split_nl s.
Proof.
  induction l as [|c l IH]; simpl; intros H; [reflexivity|].
  apply andb_prop in H as [Hc Hl]. apply negb_true_iff in Hc. rewrite Hc.
  now rewrite (IH Hl).
Qed.

Lemma split_nl_no_lf l : no_lf l = true -> split_nl l = [l].
Proof.
  induction l as [|c l IH]; simpl; intros H; [reflexivity|].
  apply andb_prop in H as [Hc Hl]. apply negb_true_iff in Hc. rewrite Hc.
  now rewrite (IH Hl).
Qed.

Lemma split_nl_joinLF ls :
  ls <> [] -> Forall (fun l => no_lf l = true) ls -> split_nl (joinLF ls) = ls.
Proof.
  intros Hne H. induction H as [|l ls Hl Hls IH]; [contradiction|].
  destruct ls as [|l' ls]; simpl.
  - now apply split_nl_no_lf.
  - rewrite (split_nl_line l _ Hl). f_equal. now apply IH.
Qed.

(** A text written line by line parses as the list of its lines. *)
Lemma parse_joinLF ls :
  Forall (fun l => no_lf l = true) ls -> parse (joinLF ls) = buildTree ls.
Proof.
  intros H. destruct ls as [|l ls]; [reflexivity|].
  unfold parse. now rewrite split_nl_joinLF.
Qed.

(** The same on texts: a blank line put between the lines of a text. *)
Lemma blank_line_in_text l1 b l2 :
  Forall (fun l => no_lf l = true) (l1 ++ b :: l2) -> blank b = true ->
  parse (joinLF (l1 ++ b :: l2)) = parse (joinLF (l1 ++ l2)).
Proof.
  intros H Hb. rewrite !parse_joinLF.
  - rewrite !buildTree_forest, !records_app. unfold records at 2. csimpl.
    now rewrite (parseLine_blank b Hb).
  - apply Forall_app in H as [H1 H2]. apply Forall_app. split; [exact H1|].
    now apply Forall_inv_tail in H2.
  - exact H.
Qed.

(** Scenario 2. *)
Example scenario2_blank_line :
  parse (joinLF [str "a"; []; str "    b"; []])
  = parse (joinLF [str "a"; str "    b"]).
Proof. reflexivity. Qed.
Example scenario1 :
  parse (joinLF [str "a"; str "    b"; str "    c"; []])
  = Some [T (str "a") [T (str "b") []; T (str "c") []]].
Proof. reflexivity. Qed.

Example scenario5 :
  parse (joinLF [str "a"; str "b"; str "    c"; []])
  = Some [T (str "a") []; T (str "b") [T (str "c") []]].
Proof. reflexivity. Qed.

Example scenario6 : parse (joinLF [str "  "; []; []]) = Some [].
Proof. reflexivity. Qed.


(** ** Carriage returns *)

Lemma split_nl_cons s : exists h t, split_nl s = h :: t.
Proof.
  destruct s as [|c r]; simpl; [eauto|].
  destruct (c =? LF)%N; [eauto|]. destruct (split_nl r); eauto.
Qed.

Lemma split_nl_remove_cr text :
  split_nl (remove_cr text) = remove_cr <$> split_nl text.
Proof.
  induction text as [|c r IH]; [reflexivity|]. simpl.
  destruct (N.eqb_spec c CR) as [->|Hcr]; simpl.
  - rewrite IH. destruct (split_nl_cons r) as (h & t & ->). reflexivity.
  - destruct (N.eqb_spec c LF) as [->|Hlf]; simpl.
    + now rewrite IH.
    + rewrite IH. destruct (split_nl_cons r) as (h & t & ->). simpl.
      unfold remove_cr at 3. simpl.
      destruct (N.eqb_spec c CR); [contradiction|reflexivity].
Qed.

Lemma trimEnd_snoc_ws s c :
  isWhiteSpace c = true -> trimEnd (s ++ [c]) = trimEnd s.
Proof.
  intros Hc. unfold trimEnd. rewrite rev_app_distr. simpl. now rewrite Hc.
Qed.

(** A trailing carriage return changes neither the level nor the name. *)
Lemma parseLine_trailing_cr line : parseLine (line ++ [CR]) = parseLine line.
Proof.
  destruct (line_cases line) as [Hb | (ws & c & rest & -> & Hws & Hc)].
  - rewrite (parseLine_blank line Hb). apply parseLine_blank.
    unfold blank in *. rewrite forallb_app, Hb. reflexivity.
  - rewrite <- app_assoc. simpl. rewrite !parseLine_indented by assumption.
    now rewrite trimEnd_snoc_ws.
Qed.

Lemma In_dropWhile {A} (f : A -> bool) x l : In x (dropWhile f l) -> In x l.
Proof.
  induction l as [|y l IH]; simpl; [easy|].
  destruct (f y); [auto|]. now simpl.
Qed.

Lemma In_trim x s : In x (trim s) -> In x s.
Proof.
  unfold trim, trimEnd, trimStart. intros H.
  apply in_rev, In_dropWhile, in_rev in H. now apply In_dropWhile in H.
Qed.

Lemma In_split_nl x line text :
  In line (split_nl text) -> In x line -> In x text.
Proof.
  revert line. induction text as [|c r IH]; simpl; intros line Hl Hx.
  - destruct Hl as [<-|[]]. exact Hx.
  - destruct (c =? LF)%N.
    + destruct Hl as [<-|Hl]; [destruct Hx|]. right. now apply (IH line).
    + destruct (split_nl_cons r) as (h & t & E). rewrite E in *.
      destruct Hl as [<-|Hl].
      * destruct Hx as [->|Hx]; [now left|]. right. apply (IH h); [now left|exact Hx].
      * right. apply (IH line); [now right|exact Hx].
Qed.

(** Names are made of characters of the text. *)
Lemma parse_names_from_text text f n x :
  parse text = Some f -> In n (preorder_forest f) -> In x n -> In x text.
Proof.
  unfold parse. rewrite buildTree_forest. intros [= <-].
  rewrite preorder_forest_by_parent, content_records.
  intros Hn Hx. apply list_elem_of_In, list_elem_of_fmap in Hn as (line & -> & Hl).
  apply list_elem_of_In, filter_In in Hl as [Hl _].
  apply (In_split_nl x line); [exact Hl|]. now apply In_trim.
Qed.

(** C10, as stated, fails: a carriage return that is not at the end of its
    line stays in the name, although every line feed follows a carriage
    return. *)
Lemma crlf_inner_cr_kept :
  ~ (forall text, lf_after_cr false text = true ->
       parse text = parse (remove_cr text)
       /\ forall f, parse text = Some f -> names_avoid CR f).
Proof.
  intros H.
  destruct (H (str "a" ++ CR :: str "b" ++ [CR; LF]) eq_refl) as [_ Hnames].
  specialize (Hnames [T (str "a" ++ CR :: str "b") []] eq_refl).
  apply Forall_inv in Hnames. apply Hnames.
  apply elem_of_cons. right. now left.
Qed.

(** On that input the two forests differ as well. *)
Lemma crlf_inner_cr_in_name :
  lf_after_cr false (str "a" ++ CR :: str "b" ++ [CR; LF]) = true
  /\ parse (str "a" ++ CR :: str "b" ++ [CR; LF])
     = Some [T (str "a" ++ CR :: str "b") []]
  /\ parse (remove_cr (str "a" ++ CR :: str "b" ++ [CR; LF]))
     = Some [T (str "ab") []].
Proof. repeat split; reflexivity. Qed.

(** Among the leading whitespace a carriage return counts toward the
    depth. *)
Lemma crlf_leading_cr_counted :
  lf_after_cr false (joinLF [str "x" ++ [CR]; str "   " ++ CR :: str "y" ++ [CR]; []])
  = true
  /\ parse (joinLF [str "x" ++ [CR]; str "   " ++ CR :: str "y" ++ [CR]; []])
     = Some [T (str "x") [T (str "y") []]]
  /\ parse (remove_cr
       (joinLF [str "x" ++ [CR]; str "   " ++ CR :: str "y" ++ [CR]; []]))
     = Some [T (str "x") []; T (str "y") []].
Proof. repeat split; reflexivity. Qed.

(** ** createFolders *)

Lemma tree_ind_forall (P : tree -> Prop) :
  (forall n kids, Forall P kids -> P (T n kids)) -> forall t, P t.
Proof.
  intros step. fix IH 1. intros [n kids]. apply step.
  induction kids as [|k kids IHkids]; constructor; [apply IH|exact IHkids].
Qed.

Section Traversal.
Context {FS : Type} `{Host FS}.

Lemma bind_run {A B} (m : M FS A) (k : A -> M FS B) w :
  (m ≫= k) w
  = match m w with
    | (Some a, w') => k a w'
    | (None, w') => (None, w')
    end.
Proof. reflexivity. Qed.

Lemma bind_ext {A B} (m1 m2 : M FS A) (k1 k2 : A -> M FS B) w :
  m1 w = m2 w -> (forall a w', k1 a w' = k2 a w') ->
  (m1 ≫= k1) w = (m2 ≫= k2) w.
Proof.
  intros Hm Hk. rewrite !bind_run, Hm.
  destruct (m2 w) as [[a|] w']; [apply Hk|reflexivity].
Qed.

Lemma forEach_app {A} (body : A -> M FS unit) l1 l2 w :
  forEach body (l1 ++ l2) w = (forEach body l1 ;; forEach body l2) w.
Proof.
  revert w. induction l1 as [|x l1 IH]; intros w; [reflexivity|].
  simpl. rewrite !bind_run. destruct (body x w) as [[[]|] w1]; [|reflexivity].
  rewrite IH. reflexivity.
Qed.

Lemma forEach_ext {A} (f g : A -> M FS unit) l :
  Forall (fun x => forall w, f x w = g x w) l ->
  forall w, forEach f l w = forEach g l w.
Proof.
  induction 1 as [|x l Hx _ IH]; intros w; [reflexivity|].
  simpl. apply bind_ext; [apply Hx|]. intros _ w'. apply IH.
Qed.

(** The loop body is a visit of the node's path followed by the call on
    its children; the guard on their number changes nothing. *)
Lemma createNode_unfold node parent w :
  createNode node parent w
  = (visit (join parent (tname node)) ;;
     createFolders (tchildren node) (join parent (tname node))) w.
Proof.
  destruct node as [n kids]. unfold createFolders, visit. simpl.
  rewrite !bind_run. unfold existsM.
  destruct (negb _).
  - rewrite !bind_run. destruct (mkdirM _ w) as [[[]|] w1]; [|reflexivity].
    simpl. now destruct kids.
  - simpl. now destruct kids.
Qed.

Lemma forEach_flat_map {A} (f : A -> list path) (l : list A) w :
  visitAll (flat_map f l) w = forEach (fun x => visitAll (f x)) l w.
Proof.
  revert w. induction l as [|x l IH]; intros w; [reflexivity|].
  simpl. unfold visitAll in *. rewrite forEach_app.
  apply bind_ext; [reflexivity|]. intros _ w'. apply IH.
Qed.

Lemma createNode_visitAll node : forall parent w,
  createNode node parent w = visitAll (node_paths node parent) w.
Proof.
  induction node as [n kids IH] using tree_ind_forall. intros parent w.
  rewrite createNode_unfold. simpl.
  change (visitAll (?p :: ?l)) with (visit p ;; visitAll l).
  apply bind_ext; [reflexivity|]. intros _ w'.
  rewrite forEach_flat_map. unfold createFolders.
  apply forEach_ext. eapply Forall_impl; [exact IH|].
  intros k Hk w''. apply Hk.
Qed.

(** [createFolders] visits the paths of the forest in pre-order. *)
Lemma createFolders_visitAll nodes parent w :
  createFolders nodes parent w = visitAll (forest_paths nodes parent) w.
Proof.
  unfold forest_paths. rewrite forEach_flat_map. unfold createFolders.
  apply forEach_ext. apply Forall_forall. intros node _ w'.
  apply createNode_visitAll.
Qed.

Lemma visit_run p w :
  visit p w
  = if existsSync (disk w) p
    then (Some tt, World (disk w) (console w ++ [Exists p]))
    else match mkdirSync (disk w) p with
         | (fs, Normal) => (Some tt, World fs (console w ++ [Created p]))
         | (fs, Thrown) => (None, World fs (console w))
         end.
Proof.
  unfold visit, existsM. rewrite bind_run.
  destruct (existsSync (disk w) p); simpl; [reflexivity|].
  rewrite bind_run. unfold mkdirM.
  destruct (mkdirSync (disk w) p) as [fs []]; reflexivity.
Qed.

Lemma visitAll_cons p ps w :
  visitAll (p :: ps) w
  = match visit p w with
    | (Some _, w') => visitAll ps w'
    | (None, w') => (None, w')
    end.
Proof. reflexivity. Qed.

Lemma visitAll_app ps qs w :
  visitAll (ps ++ qs) w
  = match visitAll ps w with
    | (Some _, w') => visitAll qs w'
    | (None, w') => (None, w')
    end.
Proof. unfold visitAll. now rewrite forEach_app. Qed.

Lemma visit_log p w :
  match visit p w with
  | (Some _, w') => exists r, console w' = console w ++ [r] /\ report_path r = p
  | (None, w') => console w' = console w
  end.
Proof.
  rewrite visit_run. destruct (existsSync (disk w) p).
  - now exists (Exists p).
  - destruct (mkdirSync (disk w) p) as [fs []]; [|reflexivity].
    now exists (Created p).
Qed.

(** The log grows by one report per path, in the order of the list, up to
    the end or up to the path at which an error is thrown. *)
Lemma visitAll_log ps : forall w,
  exists new rest,
    console (snd (visitAll ps w)) = console w ++ new
    /\ ps = (report_path <$> new) ++ rest
    /\ match fst (visitAll ps w) with
       | Some _ => rest = []
       | None => rest <> []
       end.
Proof.
  induction ps as [|p ps IH]; intros w.
  - exists [], []. simpl. now rewrite app_nil_r.
  - rewrite visitAll_cons. pose proof (visit_log p w) as Hp.
    destruct (visit p w) as [[[]|] w1].
    + destruct Hp as (r & Hr & <-).
      destruct (IH w1) as (new & rest & Hnew & Hps & Hc).
      exists (r :: new), rest. rewrite Hnew, Hr, <- app_assoc.
      repeat split; [|exact Hc]. rewrite fmap_cons. simpl. now f_equal.
    + exists [], (p :: ps). simpl. now rewrite app_nil_r.
Qed.
Lemma visitAll_thrown_inv ps : forall w w',
  visitAll ps w = (None, w') ->
  exists before p after w1,
    ps = before ++ p :: after
    /\ visitAll before w = (Some tt, w1)
    /\ existsSync (disk w1) p = false
    /\ mkdirSync (disk w1) p = (disk w', Thrown)
    /\ console w' = console w1.
Proof.
  induction ps as [|p ps IH]; intros w w' Hrun; [discriminate|].
  rewrite visitAll_cons in Hrun.
  destruct (visit p w) as [[[]|] w1] eqn:Hp.
  - destruct (IH w1 w' Hrun) as (before & q & after & w2 & -> & Hb & Hq).
    exists (p :: before), q, after, w2. repeat split; try apply Hq.
    now rewrite visitAll_cons, Hp.
  - injection Hrun as <-. exists [], p, ps, w.
    rewrite visit_run in Hp.
    destruct (existsSync (disk w) p); [discriminate|].
    destruct (mkdirSync (disk w) p) as [fs []]; [discriminate|].
    injection Hp as <-. now repeat split.
Qed.

(** The log grows as in [visitAll_log], and a run stops early only at a
    path that was not there and at which [mkdirSync] threw. *)
Lemma visitAll_stops ps w :
  exists new rest,
    console (snd (visitAll ps w)) = console w ++ new
    /\ ps = (report_path <$> new) ++ rest
    /\ match fst (visitAll ps w) with
       | Some _ => rest = []
       | None =>
           exists p after w1,
             rest = p :: after
             /\ visitAll (report_path <$> new) w = (Some tt, w1)
             /\ existsSync (disk w1) p = false
             /\ mkdirSync (disk w1) p = (disk (snd (visitAll ps w)), Thrown)
             /\ console (snd (visitAll ps w)) = console w1
       end.
Proof.
  destruct (visitAll ps w) as [[[]|] w'] eqn:Hrun.
  - pose proof (visitAll_log ps w) as Hlog. now rewrite Hrun in Hlog.
  - destruct (visitAll_thrown_inv ps w w' Hrun)
      as (before & p & after & w1 & -> & Hb & Hex & Hmk & Hcon).
    destruct (visitAll_log before w) as (new & rest & Hnew & Hps & Hc).
    rewrite Hb in Hnew, Hc. simpl in Hnew, Hc. subst rest.
    rewrite app_nil_r in Hps. subst before.
    exists new, (p :: after). simpl. repeat split.
    + now rewrite Hcon.
    + exists p, after, w1. now repeat split.
Qed.
End Traversal.

Section Outcomes.
Context {FS : Type} `{Host FS}.

(** C4: a run is the create-or-skip visit of the paths of the forest in
    depth-first pre-order, siblings from left to right. Its reports are
    those paths in that order, one report per path: all of them when the
    run completes; when it does not, those before the first path that was
    not there and at which [mkdirSync] threw, and nothing after. *)
Theorem createFolders_preorder nodes parent w :
  createFolders nodes parent w = visitAll (forest_paths nodes parent) w
  /\ exists new rest,
       console (snd (createFolders nodes parent w)) = console w ++ new
       /\ forest_paths nodes parent = (report_path <$> new) ++ rest
       /\ match fst (createFolders nodes parent w) with
          | Some _ => rest = []
          | None =>
              exists p after w1,
                rest = p :: after
                /\ visitAll (report_path <$> new) w = (Some tt, w1)
                /\ existsSync (disk w1) p = false
                /\ mkdirSync (disk w1) p
                   = (disk (snd (createFolders nodes parent w)), Thrown)
                /\ console (snd (createFolders nodes parent w)) = console w1
          end.
Proof.
  split; [apply createFolders_visitAll|].
  rewrite createFolders_visitAll. apply visitAll_stops.
Qed.

(** The pre-order listing puts a node first, then the whole of its
    subtree, then its following siblings. *)
Lemma forest_paths_cons node rest parent :
  forest_paths (node :: rest) parent
  = join parent (tname node)
    :: forest_paths (tchildren node) (join parent (tname node))
    ++ forest_paths rest parent.
Proof. now destruct node. Qed.

(** C6: a node whose path is already there is reported as existing, the
    disk is left as it is, nothing is thrown, and the run goes on with its
    children under that path and then with its siblings. *)
Theorem createFolders_existing node rest parent w :
  existsSync (disk w) (join parent (tname node)) = true ->
  createFolders (node :: rest) parent w
  = (createFolders (tchildren node) (join parent (tname node)) ;;
     createFolders rest parent)
      (World (disk w) (console w ++ [Exists (join parent (tname node))])).
Proof.
  intros Hex. unfold createFolders at 1. simpl forEach.
  rewrite bind_run, createNode_unfold, bind_run, visit_run, Hex.
  reflexivity.
Qed.

(** Paths that are all there are all reported as existing, and the disk is
    not touched. *)
Lemma visitAll_present ps : forall w,
  (forall p, p ∈ ps -> existsSync (disk w) p = true) ->
  visitAll ps w = (Some tt, World (disk w) (console w ++ (Exists <$> ps))).
Proof.
  induction ps as [|p ps IH]; intros w Hps.
  - simpl. rewrite app_nil_r. now destruct w.
  - rewrite visitAll_cons, visit_run, (Hps p) by constructor.
    rewrite IH; simpl.
    + now rewrite <- app_assoc.
    + intros q Hq. apply Hps. now constructor.
Qed.

Context `{!HostLaws FS}.

Lemma visit_keeps p w q :
  existsSync (disk w) q = true -> existsSync (disk (snd (visit p w))) q = true.
Proof.
  intros Hq. rewrite visit_run. destruct (existsSync (disk w) p); [exact Hq|].
  destruct (mkdirSync (disk w) p) as [fs c] eqn:E.
  pose proof (mkdir_keeps _ _ _ _ q E Hq). now destruct c.
Qed.

Lemma visitAll_keeps ps : forall w q,
  existsSync (disk w) q = true ->
  existsSync (disk (snd (visitAll ps w))) q = true.
Proof.
  induction ps as [|p ps IH]; intros w q Hq; [exact Hq|].
  rewrite visitAll_cons. pose proof (visit_keeps p w q Hq) as Hp.
  destruct (visit p w) as [[[]|] w1]; [now apply IH|exact Hp].
Qed.

Lemma visit_exists p w w' :
  visit p w = (Some tt, w') -> existsSync (disk w') p = true.
Proof.
  rewrite visit_run. destruct (existsSync (disk w) p) eqn:Hex.
  - now intros [= <-].
  - destruct (mkdirSync (disk w) p) as [fs []] eqn:E; [|discriminate].
    intros [= <-]. simpl. now apply (mkdir_creates _ _ _ E).
Qed.

(** After a run that completes, every path of the list is there. *)
Lemma visitAll_exists ps : forall w w',
  visitAll ps w = (Some tt, w') ->
  forall p, p ∈ ps -> existsSync (disk w') p = true.
Proof.
  induction ps as [|p ps IH]; intros w w' Hrun q Hq.
  - inversion Hq.
  - rewrite visitAll_cons in Hrun.
    destruct (visit p w) as [[[]|] w1] eqn:Hp; [|discriminate].
    apply elem_of_cons in Hq as [->|Hq].
    + apply visit_exists in Hp.
      pose proof (visitAll_keeps ps w1 p Hp) as Hk. now rewrite Hrun in Hk.
    + now apply (IH w1 w' Hrun).
Qed.

(** C3: after a run that completes, a second run over the disk it left
    reports every path as existing, creates nothing and leaves the disk
    as it was. *)
Theorem createFolders_idempotent nodes parent w w1 :
  createFolders nodes parent w = (Some tt, w1) ->
  createFolders nodes parent w1
  = (Some tt,
     World (disk w1) (console w1 ++ (Exists <$> forest_paths nodes parent))).
Proof.
  rewrite !createFolders_visitAll. intros Hrun.
  apply visitAll_present. now apply (visitAll_exists _ w w1 Hrun).
Qed.

(** C5: when [mkdirSync] throws at a path, the run ends there with the
    error: the disk is the one that call left, nothing is reported for
    that path or any later one, and whatever was there before, the
    directories made earlier in the run included, is still there. *)
Theorem createFolders_mkdir_throws nodes parent w before p after w1 fs' :
  forest_paths nodes parent = before ++ p :: after ->
  visitAll before w = (Some tt, w1) ->
  existsSync (disk w1) p = false ->
  mkdirSync (disk w1) p = (fs', Thrown) ->
  createFolders nodes parent w = (None, World fs' (console w1))
  /\ (exists new, console w1 = console w ++ new
                  /\ report_path <$> new = before)
  /\ (forall q, q ∈ before -> existsSync fs' q = true)
  /\ (forall q, existsSync (disk w) q = true -> existsSync fs' q = true).
Proof.
  intros Hpaths Hbefore Hex Hmk. repeat split.
  - rewrite createFolders_visitAll, Hpaths, visitAll_app, Hbefore.
    now rewrite visitAll_cons, visit_run, Hex, Hmk.
  - destruct (visitAll_log before w) as (new & rest & Hnew & Hps & Hc).
    rewrite Hbefore in Hnew, Hc. simpl in Hnew, Hc. subst rest.
    exists new. split; [exact Hnew|]. now rewrite app_nil_r in Hps.
  - intros q Hq. apply (mkdir_keeps _ _ _ _ q Hmk).
    now apply (visitAll_exists _ w w1 Hbefore).
  - intros q Hq. apply (mkdir_keeps _ _ _ _ q Hmk).
    pose proof (visitAll_keeps before w q Hq) as Hk. now rewrite Hbefore in Hk.
Qed.
End Outcomes.

(** ** The small host: laws and runs *)

Lemma path_eqb_refl p : Flat.path_eqb p p = true.
Proof. induction p as [|c p IH]; simpl; [reflexivity|]. now rewrite N.eqb_refl. Qed.

#[global] Instance flat_laws : HostLaws Flat.disk.
Proof.
  split.
  - intros fs p fs'. simpl. destruct (Flat.mem p (Flat.denied fs)); [discriminate|].
    intros [= <-]. simpl. now rewrite path_eqb_refl.
  - intros fs p fs' c q. simpl.
    destruct (Flat.mem p (Flat.denied fs)); intros [= <- <-] Hq; [exact Hq|].
    simpl. rewrite Hq. apply orb_true_r.
Qed.

(** Scenario 1: a root with two children under [/tmp/x]. *)
Example scenario1_materialize :
  (f ← parse (joinLF [str "a"; str "    b"; str "    c"; []]);
   Some (console (snd (createFolders f (str "/tmp/x") (Flat.fresh [])))))
  = Some [Created (str "/tmp/x/a"); Created (str "/tmp/x/a/b");
          Created (str "/tmp/x/a/c")].
Proof. reflexivity. Qed.

(** Scenario 3: the same again over the disk left by the first run. *)
Example scenario3_rerun :
  let w1 := snd (createFolders Flat.sample (str "/r") (Flat.fresh [])) in
  createFolders Flat.sample (str "/r") (World (disk w1) [])
  = (Some tt,
     World (disk w1)
       [Exists (str "/r/a"); Exists (str "/r/a/b"); Exists (str "/r/c")]).
Proof. reflexivity. Qed.

Lemma createFolders_existing_witness :
  createFolders [T (str "a") [T (str "b") []]] (str "/r")
    (World (Flat.Disk [str "/r/a"] []) [])
  = (createFolders [T (str "b") []] (join (str "/r") (str "a")) ;;
     createFolders [] (str "/r"))
      (World (Flat.Disk [str "/r/a"] [])
             ([] ++ [Exists (join (str "/r") (str "a"))])).
Proof.
  apply (createFolders_existing (T (str "a") [T (str "b") []]) [] (str "/r")
           (World (Flat.Disk [str "/r/a"] []) [])).
  reflexivity.
Defined.

Lemma createFolders_idempotent_witness :
  createFolders Flat.sample (str "/r")
    (snd (createFolders Flat.sample (str "/r") (Flat.fresh [])))
  = (Some tt,
     World (disk (snd (createFolders Flat.sample (str "/r") (Flat.fresh []))))
       (console (snd (createFolders Flat.sample (str "/r") (Flat.fresh [])))
        ++ (Exists <$> forest_paths Flat.sample (str "/r")))).
Proof.
  apply (createFolders_idempotent Flat.sample (str "/r") (Flat.fresh [])).
  reflexivity.
Defined.

Lemma createFolders_mkdir_throws_witness :
  createFolders Flat.sample (str "/r") (Flat.fresh [str "/r/a/b"])
  = (None,
     World (Flat.Disk [str "/r/a"] [str "/r/a/b"]) [Created (str "/r/a")])
  /\ (exists new,
        [Created (str "/r/a")] = [] ++ new
        /\ report_path <$> new = [str "/r/a"])
  /\ (forall q, q ∈ [str "/r/a"] ->
        existsSync (Flat.Disk [str "/r/a"] [str "/r/a/b"]) q = true)
  /\ (forall q, existsSync (Flat.Disk [] [str "/r/a/b"]) q = true ->
        existsSync (Flat.Disk [str "/r/a"] [str "/r/a/b"]) q = true).
Proof.
  apply (createFolders_mkdir_throws Flat.sample (str "/r")
           (Flat.fresh [str "/r/a/b"]) [str "/r/a"] (str "/r/a/b")
           [str "/r/c"]
           (World (Flat.Disk [str "/r/a"] [str "/r/a/b"])
                  [Created (str "/r/a")])
           (Flat.Disk [str "/r/a"] [str "/r/a/b"]));
    reflexivity.
Defined.

(** * Further properties of the code *)

(** ** parseLine and split *)

Lemma last_rev {A} (l : list A) : last (rev l) = head l.
Proof. destruct l as [|x l]; [reflexivity|]. simpl. apply last_snoc. Qed.

Lemma dropWhile_idem {A} (f : A -> bool) l :
  dropWhile f (dropWhile f l) = dropWhile f l.
Proof.
  destruct (dropWhile f l) as [|c r] eqn:E; [reflexivity|].
  apply dropWhile_head in E. simpl. now rewrite E.
Qed.

Lemma trimEnd_idem s : trimEnd (trimEnd s) = trimEnd s.
Proof. unfold trimEnd. now rewrite rev_involutive, dropWhile_idem. Qed.

Lemma trimEnd_last s c : last (trimEnd s) = Some c -> isWhiteSpace c = false.
Proof.
  unfold trimEnd. rewrite last_rev.
  destruct (dropWhile isWhiteSpace (rev s)) as [|x r] eqn:E; [discriminate|].
  intros [= <-]. eapply dropWhile_head, E.
Qed.

(** X1: the name of a parsed line is never empty, and neither its first nor
    its last character is whitespace. *)
Theorem parseLine_name_trimmed line p :
  parseLine line = Some p ->
  exists c d, head (content p) = Some c /\ isWhiteSpace c = false
              /\ last (content p) = Some d /\ isWhiteSpace d = false.
Proof.
  destruct (line_cases line) as [Hb | (ws & c & rest & -> & Hws & Hc)].
  - now rewrite (parseLine_blank line Hb).
  - rewrite parseLine_indented by assumption. intros [= <-]. simpl.
    destruct (last (c :: trimEnd rest)) as [d|] eqn:Hd.
    + exists c, d. repeat split; [exact Hc|].
      rewrite last_cons in Hd.
      destruct (last (trimEnd rest)) as [d'|] eqn:Hd'.
      * injection Hd as <-. now apply (trimEnd_last rest).
      * now injection Hd as <-.
    + now apply last_None in Hd.
Qed.

Lemma parseLine_name_trimmed_witness :
  exists c d, head (str "my dir") = Some c /\ isWhiteSpace c = false
              /\ last (str "my dir") = Some d /\ isWhiteSpace d = false.
Proof.
  apply (parseLine_name_trimmed (str "    my dir  ") (Parsed 1 (str "my dir"))).
  reflexivity.
Defined.

(** X2: a name parses to itself at depth 0: parsing again what [parseLine]
    returned changes nothing. *)
Theorem parseLine_reparse line p :
  parseLine line = Some p -> parseLine (content p) = Some (Parsed 0 (content p)).
Proof.
  destruct (line_cases line) as [Hb | (ws & c & rest & -> & Hws & Hc)].
  - now rewrite (parseLine_blank line Hb).
  - rewrite parseLine_indented by assumption. intros [= <-]. simpl.
    pose proof (parseLine_indented [] c (trimEnd rest) eq_refl Hc) as E.
    simpl in E. rewrite E. now rewrite trimEnd_idem.
Qed.

Lemma parseLine_reparse_witness :
  parseLine (str "my dir") = Some (Parsed 0 (str "my dir")).
Proof.
  apply (parseLine_reparse (str "        my dir ") (Parsed 2 (str "my dir"))).
  reflexivity.
Defined.

Lemma parseLine_shift pre k line p :
  forallb isWhiteSpace pre = true -> length pre = (4 * k)%nat ->
  parseLine line = Some p ->
  parseLine (pre ++ line) = Some (Parsed (level p + Z.of_nat k) (content p)).
Proof.
  intros Hpre Hlen.
  destruct (line_cases line) as [Hb | (ws & c & rest & -> & Hws & Hc)].
  - now rewrite (parseLine_blank line Hb).
  - rewrite parseLine_indented by assumption. intros [= <-]. simpl.
    rewrite app_assoc, parseLine_indented;
      [|rewrite forallb_app, Hpre, Hws; reflexivity|exact Hc].
    do 2 f_equal. rewrite length_app, Hlen, Nat2Z.inj_add, Nat2Z.inj_mul.
    change (Z.of_nat 4) with 4.
    rewrite (Z.add_comm (4 * Z.of_nat k)), (Z.mul_comm 4).
    now rewrite Z.div_add by lia.
Qed.

(** X3: four more whitespace characters in front of a line put it one level
    deeper and leave its name as it is; [4 * k] of them, [k] levels. *)
Theorem parseLine_indent pre k line p :
  forallb isWhiteSpace pre = true -> length pre = (4 * k)%nat ->
  parseLine line = Some p ->
  parseLine (pre ++ line) = Some (Parsed (level p + Z.of_nat k) (content p)).
Proof. apply parseLine_shift. Qed.

Lemma parseLine_indent_witness :
  parseLine ([SP; SP; TAB; SP] ++ str "  x")
  = Some (Parsed (0 + Z.of_nat 1) (str "x")).
Proof.
  apply (parseLine_indent [SP; SP; TAB; SP] 1 (str "  x") (Parsed 0 (str "x")));
    reflexivity.
Defined.

Lemma parseLine_snoc_ws line c :
  isWhiteSpace c = true -> parseLine (line ++ [c]) = parseLine line.
Proof.
  intros Hc.
  destruct (line_cases line) as [Hb | (ws & c0 & rest & -> & Hws & Hc0)].
  - rewrite (parseLine_blank line Hb). apply parseLine_blank.
    unfold blank in *. rewrite forallb_app, Hb. simpl. now rewrite Hc.
  - rewrite <- app_assoc. simpl. rewrite !parseLine_indented by assumption.
    now rewrite trimEnd_snoc_ws.
Qed.

(** X4: whitespace at the end of a line is ignored: it changes neither the
    level nor the name, nor whether the line counts as blank. *)
Theorem parseLine_trailing_ws line tl :
  forallb isWhiteSpace tl = true -> parseLine (line ++ tl) = parseLine line.
Proof.
  induction tl as [|c tl IH] using rev_ind; intros H.
  - now rewrite app_nil_r.
  - rewrite forallb_app in H. apply andb_prop in H as [Htl Hc].
    simpl in Hc. rewrite andb_true_r in Hc.
    rewrite app_assoc, parseLine_snoc_ws by exact Hc. now apply IH.
Qed.

Lemma parseLine_trailing_ws_witness :
  parseLine (str "    a" ++ [SP; TAB; CR]) = parseLine (str "    a").
Proof. apply (parseLine_trailing_ws (str "    a") [SP; TAB; CR]). reflexivity. Defined.

(** X5: splitting at line feeds loses nothing: no piece holds a line feed,
    there is one piece more than there are line feeds, and the pieces joined
    by line feeds are the text again. *)
Theorem split_nl_join s :
  Forall (fun l => no_lf l = true) (split_nl s)
  /\ length (split_nl s)
     = S (length (List.filter (fun c => (c =? LF)%N) s))
  /\ joinLF (split_nl s) = s.
Proof.
  induction s as [|c r (Hno & Hlen & Hjoin)]; [now repeat constructor|].
  simpl. destruct (split_nl_cons r) as (h & t & E). rewrite E in *.
  destruct (N.eqb_spec c LF) as [->|Hc].
  - repeat split.
    + now constructor.
    + cbn [length]. cbn [length] in Hlen. now rewrite Hlen.
    + change (joinLF ([] :: h :: t)) with ([] ++ LF :: joinLF (h :: t)).
      now rewrite Hjoin.
  - apply Forall_cons in Hno as [Hh Ht]. repeat split.
    + constructor; [|exact Ht]. simpl.
      apply N.eqb_neq in Hc. now rewrite Hc.
    + exact Hlen.
    + rewrite <- Hjoin. simpl. now destruct t.
Qed.

(** ** The loop of buildTree: what it keeps *)

Lemma parseLine_level_nonneg line p : parseLine line = Some p -> 0 <= level p.
Proof.
  unfold parseLine. destruct (negb _); [discriminate|]. intros [= <-]. simpl.
  apply Z.div_pos; lia.
Qed.

Lemma records_level_nonneg lines :
  Forall (fun r => 0 <= level r) (records lines).
Proof.
  induction lines as [|line rest IH]; [constructor|].
  unfold records in *. csimpl.
  destruct (parseLine line) as [p|] eqn:E; [|exact IH].
  constructor; [now apply (parseLine_level_nonneg line)|exact IH].
Qed.

Lemma top_level_parent recs j r :
  Forall (fun r => 0 <= level r) recs -> recs !! j = Some r ->
  top_level recs (parent_of recs j) < level r.
Proof.
  intros Hnn Hj. destruct (parent_of recs j) as [j'|] eqn:E; simpl.
  - destruct (parent_Some recs j j' r Hj E) as (_ & rj & -> & Hlt & _).
    exact Hlt.
  - pose proof (Forall_lookup_1 _ _ _ _ Hnn Hj) as H0. simpl in H0. lia.
Qed.

Lemma chain_shape recs o st :
  Forall (fun r => 0 <= level r) recs -> chain recs o st ->
  exists top below,
    st = top :: below /\ flevel top = top_level recs o
    /\ last st = Some (Frame (-1) root)
    /\ Sorted below_is_shallower st
    /\ Z.of_nat (length st) <= flevel top + 2.
Proof.
  intros Hnn. induction 1 as [|j r st Hj Hst IH].
  - exists (Frame (-1) root), []. repeat split; simpl; try lia.
    repeat constructor.
  - destruct IH as (top & below & -> & Htop & Hlast & Hsorted & Hlen).
    pose proof (top_level_parent recs j r Hnn Hj) as Hlt.
    exists (Frame (level r) (S j)), (top :: below). repeat split.
    + simpl. now rewrite Hj.
    + now rewrite last_cons_cons.
    + constructor; [exact Hsorted|]. constructor.
      unfold below_is_shallower. simpl. lia.
    + cbn [length flevel] in *. lia.
Qed.

(** X6: all through the loop the stack ends with the sentinel, which is
    never popped, and levels go strictly up from the sentinel to the top; so
    the stack never holds more than the level of its top entry plus two. *)
Theorem loop_stack_sorted lines :
  exists s top below,
    loop init lines = Some s
    /\ stack s = top :: below
    /\ last (stack s) = Some (Frame (-1) root)
    /\ Sorted below_is_shallower (stack s)
    /\ Z.of_nat (length (stack s)) <= flevel top + 2.
Proof.
  destruct (loop_records lines) as (s & Hloop & Hinv).
  destruct (chain_shape _ _ _ (records_level_nonneg lines)
              (inv_stack _ _ _ Hinv))
    as (top & below & Hst & _ & Hlast & Hsorted & Hlen).
  exists s, top, below. now rewrite <- Hst.
Qed.

Lemma loop_app l1 l2 s :
  loop s (l1 ++ l2) = loop s l1 ≫= fun s' => loop s' l2.
Proof.
  revert s. induction l1 as [|line l1 IH]; intros s; [reflexivity|].
  simpl. destruct (step s line) as [s1|]; simpl; [apply IH|reflexivity].
Qed.

Lemma step_grows s line s' :
  step s line = Some s' ->
  forall a arr, heap s !! a = Some arr ->
    exists added, heap s' !! a = Some (arr ++ added).
Proof.
  unfold step. destruct (parseLine line) as [[lvl name]|].
  - unfold alloc, push.
    destruct (head (unwind lvl (stack s))) as [top|]; simpl; [|discriminate].
    destruct ((heap s ++ [[]]) !! fchildren top) as [arr0|] eqn:E0;
      simpl; [|discriminate].
    intros [= <-] a arr Ha. simpl.
    pose proof (lookup_lt_Some _ _ _ Ha) as Hlt.
    destruct (decide (fchildren top = a)) as [Heq|Hne].
    + rewrite Heq in *. rewrite lookup_app_l in E0 by exact Hlt.
      replace arr0 with arr in * by congruence.
      exists [Node name (length (heap s))].
      apply list_lookup_insert_eq. rewrite length_app. lia.
    + exists []. rewrite list_lookup_insert_ne by exact Hne.
      now rewrite lookup_app_l, app_nil_r by exact Hlt.
  - intros [= <-] a arr Ha. exists []. now rewrite app_nil_r.
Qed.

Lemma loop_grows lines : forall s s',
  loop s lines = Some s' ->
  forall a arr, heap s !! a = Some arr ->
    exists added, heap s' !! a = Some (arr ++ added).
Proof.
  induction lines as [|line rest IH]; intros s s' Hloop a arr Ha.
  - injection Hloop as <-. exists []. now rewrite app_nil_r.
  - simpl in Hloop. destruct (step s line) as [s1|] eqn:Hstep; [|discriminate].
    simpl in Hloop.
    destruct (step_grows s line s1 Hstep a arr Ha) as (add1 & H1).
    destruct (IH s1 s' Hloop a _ H1) as (add2 & H2).
    exists (add1 ++ add2). now rewrite app_assoc.
Qed.

(** X7: reading more lines only appends: every array of children built from
    the first lines is still there, in the same order, at the front of the
    array built from the longer input. No node is ever removed, moved or
    given another parent. *)
Theorem loop_store_grows lines more :
  exists s1 s2,
    loop init lines = Some s1
    /\ loop init (lines ++ more) = Some s2
    /\ forall a arr, heap s1 !! a = Some arr ->
         exists added, heap s2 !! a = Some (arr ++ added).
Proof.
  destruct (loop_records lines) as (s1 & H1 & _).
  destruct (loop_records (lines ++ more)) as (s2 & H2 & _).
  exists s1, s2. repeat split; [exact H1|exact H2|].
  rewrite loop_app, H1 in H2. simpl in H2. now apply (loop_grows more).
Qed.

Lemma records_nil lines :
  records lines = [] <-> Forall (fun l => blank l = true) lines.
Proof.
  induction lines as [|line rest IH]; [now split|].
  unfold records in *. csimpl. rewrite Forall_cons.
  destruct (parseLine line) as [p|] eqn:E.
  - split; [discriminate|]. intros [Hb _].
    apply parseLine_blank in Hb. congruence.
  - apply parseLine_None in E. rewrite IH. tauto.
Qed.

(** X8: the forest is empty exactly when every line is blank (in
    particular for no line at all). *)
Theorem buildTree_empty_iff lines :
  buildTree lines = Some [] <-> Forall (fun l => blank l = true) lines.
Proof.
  rewrite buildTree_forest, <- records_nil. split.
  - intros [= H]. pose proof (preorder_forest_by_parent (records lines)) as Hp.
    rewrite H in Hp. simpl in Hp. symmetry in Hp.
    now apply fmap_nil_inv in Hp.
  - now intros ->.
Qed.

(** ** Forests of longer inputs *)

Lemma omap_seq_shift {B} (f : nat -> option B) n m :
  omap f (seq n m) = omap (fun k => f (n + k)%nat) (seq 0 m).
Proof.
  revert n. induction m as [|m IH]; intros n; [reflexivity|].
  rewrite !seq_S, !omap_app, IH. simpl. reflexivity.
Qed.

Section Compose.
Local Open Scope nat_scope.
Variables r1 r2 : list parsed.

Lemma nearest_app_l d i :
  i <= length r1 ->
  nearest_shallower (r1 ++ r2) d i = nearest_shallower r1 d i.
Proof.
  induction i as [|i IH]; intros Hi; [reflexivity|]. simpl.
  rewrite lookup_app_l by lia. rewrite IH by lia. reflexivity.
Qed.

Lemma nearest_app_r d i :
  nearest_shallower (r1 ++ r2) d (length r1 + i)
  = match nearest_shallower r2 d i with
    | Some j => Some (length r1 + j)
    | None => nearest_shallower r1 d (length r1)
    end.
Proof.
  induction i as [|i IH].
  - rewrite Nat.add_0_r. now apply nearest_app_l.
  - rewrite Nat.add_succ_r. simpl.
    rewrite lookup_app_r by lia.
    replace (length r1 + i - length r1) with i by lia.
    destruct (r2 !! i) as [r|]; [|exact IH].
    destruct (level r <? d)%Z; [reflexivity|exact IH].
Qed.

Lemma parent_app_l k :
  k < length r1 -> parent_of (r1 ++ r2) k = parent_of r1 k.
Proof.
  intros Hk. unfold parent_of. rewrite lookup_app_l by exact Hk.
  destruct (r1 !! k) as [r|]; simpl; [|reflexivity].
  apply nearest_app_l. lia.
Qed.

(** From here on the second part starts with a record that is nowhere
    deeper than the records of the first part. *)
Variable p0 : parsed.
Hypothesis first_r2 : r2 !! 0 = Some p0.
Hypothesis shallow_p0 : Forall (fun r => (level p0 <= level r)%Z) r1.

Lemma parent_app_r k :
  parent_of (r1 ++ r2) (length r1 + k)
  = (fun j => length r1 + j) <$> parent_of r2 k.
Proof.
  unfold parent_of. rewrite lookup_app_r by lia.
  replace (length r1 + k - length r1) with k by lia.
  destruct (r2 !! k) as [r|] eqn:Hk; simpl; [|reflexivity].
  rewrite nearest_app_r.
  destruct (nearest_shallower r2 (level r) k) as [j|] eqn:E; [reflexivity|].
  simpl. apply nearest_shallower_flat.
  assert (level r <= level p0)%Z as Hle.
  { destruct k as [|k]; [replace r with p0 by congruence; lia|].
    apply (nearest_None r2 (level r) (S k) E 0 p0); [lia|exact first_r2]. }
  eapply Forall_impl; [exact shallow_p0|]. intros r' Hr'. simpl in *. lia.
Qed.

Lemma forest_under_app_l fuel : forall k,
  k < length r1 ->
  forest_under fuel (r1 ++ r2) (Some k) = forest_under fuel r1 (Some k).
Proof.
  induction fuel as [|fuel IH]; intros k Hk; [reflexivity|].
  cbn [forest_under]. rewrite length_app, seq_app, omap_app.
  rewrite (omap_none_in _ (seq (0 + length r1) (length r2))), app_nil_r.
  - apply omap_ext_in. intros j Hj%elem_of_seq.
    rewrite lookup_app_l, parent_app_l by lia.
    destruct (r1 !! j) as [r|]; simpl; [|reflexivity].
    destruct (decide _); [|reflexivity]. now rewrite IH by lia.
  - intros j Hj%elem_of_seq.
    replace j with (length r1 + (j - length r1)) by lia.
    rewrite parent_app_r.
    destruct ((r1 ++ r2) !! _) as [r|]; simpl; [|reflexivity].
    rewrite decide_False; [reflexivity|].
    destruct (parent_of r2 (j - length r1)); simpl; [|discriminate].
    intros [= H]. lia.
Qed.

Lemma forest_under_app_r fuel : forall k,
  forest_under fuel (r1 ++ r2) (Some (length r1 + k))
  = forest_under fuel r2 (Some k).
Proof.
  induction fuel as [|fuel IH]; intros k; [reflexivity|].
  cbn [forest_under]. rewrite length_app, seq_app, omap_app.
  rewrite (omap_none_in _ (seq 0 (length r1))). simpl "++".
  - rewrite omap_seq_shift. apply omap_ext_in. intros j _. simpl.
    rewrite parent_app_r, lookup_app_r by lia.
    replace (length r1 + j - length r1) with j by lia.
    destruct (r2 !! j) as [r|]; simpl; [|reflexivity].
    destruct (decide (parent_of r2 j = Some k)) as [E|Hne].
    + rewrite E. simpl. rewrite decide_True by reflexivity. now rewrite IH.
    + rewrite decide_False; [reflexivity|].
      destruct (parent_of r2 j); simpl; [|discriminate].
      intros [= H]. apply Hne. f_equal. lia.
  - intros j Hj%elem_of_seq. rewrite lookup_app_l, parent_app_l by lia.
    destruct (r1 !! j) as [r|]; simpl; [|reflexivity].
    rewrite decide_False; [reflexivity|]. intros E.
    apply parent_of_lt in E. lia.
Qed.

Lemma forest_under_app_root fuel :
  forest_under fuel (r1 ++ r2) None
  = forest_under fuel r1 None ++ forest_under fuel r2 None.
Proof.
  destruct fuel as [|fuel]; [reflexivity|].
  cbn [forest_under]. rewrite length_app, seq_app, omap_app. f_equal.
  - apply omap_ext_in. intros j Hj%elem_of_seq.
    rewrite lookup_app_l, parent_app_l by lia.
    destruct (r1 !! j) as [r|]; simpl; [|reflexivity].
    destruct (decide _); [|reflexivity]. now rewrite forest_under_app_l by lia.
  - simpl. rewrite omap_seq_shift. apply omap_ext_in. intros j _. simpl.
    rewrite parent_app_r, lookup_app_r by lia.
    replace (length r1 + j - length r1) with j by lia.
    destruct (r2 !! j) as [r|]; simpl; [|reflexivity].
    destruct (parent_of r2 j) as [j'|]; simpl.
    + reflexivity.
    + now rewrite forest_under_app_r.
Qed.

Lemma forest_by_parent_app :
  forest_by_parent (r1 ++ r2) = forest_by_parent r1 ++ forest_by_parent r2.
Proof.
  unfold forest_by_parent.
  rewrite <- (forest_under_fuel r1 (S (length (r1 ++ r2))))
    by (rewrite length_app; lia).
  rewrite <- (forest_under_fuel r2 (S (length (r1 ++ r2))))
    by (rewrite length_app; lia).
  apply forest_under_app_root.
Qed.
End Compose.

(** X9: a line that is not indented starts afresh: the forest of the whole
    input is the forest of the lines before it followed by the forest of
    the lines from it on. *)
Theorem buildTree_app_root l1 l0 l2 p0 :
  parseLine l0 = Some p0 -> level p0 = 0 ->
  exists f1 f2,
    buildTree l1 = Some f1 /\ buildTree (l0 :: l2) = Some f2
    /\ buildTree (l1 ++ l0 :: l2) = Some (f1 ++ f2).
Proof.
  intros Hl0 Hp0. exists (forest_by_parent (records l1)),
    (forest_by_parent (records (l0 :: l2))).
  rewrite !buildTree_forest. repeat split.
  rewrite records_app. f_equal.
  apply (forest_by_parent_app _ _ p0).
  - unfold records. csimpl. now rewrite Hl0.
  - rewrite Hp0. apply records_level_nonneg.
Qed.

Lemma buildTree_app_root_witness :
  exists f1 f2,
    buildTree [str "a"; str "    b"] = Some f1
    /\ buildTree [str "c"; str "    d"] = Some f2
    /\ buildTree ([str "a"; str "    b"] ++ [str "c"; str "    d"])
       = Some (f1 ++ f2).
Proof.
  apply (buildTree_app_root [str "a"; str "    b"] (str "c") [str "    d"]
           (Parsed 0 (str "c"))); reflexivity.
Defined.

(** ** Indenting a whole outline *)

Lemma nearest_deepen k recs d i :
  nearest_shallower (deepen k <$> recs) (d + Z.of_nat k) i
  = nearest_shallower recs d i.
Proof.
  induction i as [|i IH]; [reflexivity|]. simpl.
  rewrite list_lookup_fmap. destruct (recs !! i) as [r|]; simpl; [|exact IH].
  rewrite IH.
  destruct (Z.ltb_spec (level r + Z.of_nat k) (d + Z.of_nat k)),
    (Z.ltb_spec (level r) d); (reflexivity || lia).
Qed.

Lemma parent_deepen k recs j :
  parent_of (deepen k <$> recs) j = parent_of recs j.
Proof.
  unfold parent_of. rewrite list_lookup_fmap.
  destruct (recs !! j) as [r|]; simpl; [|reflexivity]. apply nearest_deepen.
Qed.

Lemma forest_under_deepen k recs fuel : forall p,
  forest_under fuel (deepen k <$> recs) p = forest_under fuel recs p.
Proof.
  induction fuel as [|fuel IH]; intros p; [reflexivity|].
  cbn [forest_under]. rewrite length_fmap. apply omap_ext_in. intros j _.
  rewrite list_lookup_fmap, parent_deepen.
  destruct (recs !! j) as [r|]; simpl; [|reflexivity].
  destruct (decide _); [|reflexivity]. now rewrite IH.
Qed.

Lemma records_indent pre k lines :
  forallb isWhiteSpace pre = true -> length pre = (4 * k)%nat ->
  records (app pre <$> lines) = deepen k <$> records lines.
Proof.
  intros Hpre Hlen. induction lines as [|line rest IH]; [reflexivity|].
  unfold records in *. csimpl.
  destruct (parseLine line) as [p|] eqn:E.
  - rewrite (parseLine_shift pre k line p Hpre Hlen E). csimpl.
    now rewrite IH.
  - apply parseLine_None in E. rewrite parseLine_blank; [exact IH|].
    unfold blank in *. now rewrite forallb_app, Hpre, E.
Qed.

(** X10: indenting every line of an outline by the same run of whitespace, a
    multiple of four long, gives the same forest. *)
Theorem buildTree_indent_all pre k lines :
  forallb isWhiteSpace pre = true -> length pre = (4 * k)%nat ->
  buildTree (app pre <$> lines) = buildTree lines.
Proof.
  intros Hpre Hlen. rewrite !buildTree_forest. f_equal.
  rewrite (records_indent pre k lines Hpre Hlen).
  unfold forest_by_parent. rewrite length_fmap. apply forest_under_deepen.
Qed.

Lemma buildTree_indent_all_witness :
  buildTree (app (str "    ") <$> [str "a"; str "  b"; str "    c"])
  = buildTree [str "a"; str "  b"; str "    c"].
Proof.
  apply (buildTree_indent_all (str "    ") 1 [str "a"; str "  b"; str "    c"]);
    reflexivity.
Defined.

Lemma buildTree_all_roots_witness :
  buildTree [str "a"; str "  b"; []; str "   c"]
  = Some ((fun r => T (content r) [])
            <$> records [str "a"; str "  b"; []; str "   c"]).
Proof.
  apply (buildTree_all_roots [str "a"; str "  b"; []; str "   c"]).
  repeat constructor.
Defined.

(** ** createFolders: what a run leaves behind *)

Section Runs.
Context {FS : Type} `{Host FS}.

(** X12: the forest is handled tree by tree: a run over [f1 ++ f2] is the
    run over [f1] followed, unless that one throws, by the run over [f2] on
    the world it left. *)
Theorem createFolders_app f1 f2 parent w :
  createFolders (f1 ++ f2) parent w
  = (createFolders f1 parent ;; createFolders f2 parent) w.
Proof. unfold createFolders. apply forEach_app. Qed.

Lemma visitAll_console ps w :
  exists new, console (snd (visitAll ps w)) = console w ++ new.
Proof. destruct (visitAll_log ps w) as (new & _ & Hnew & _). eauto. Qed.

Context `{!HostLaws FS}.

(** X13: when a run completes, every path of the forest is there. *)
Theorem createFolders_complete nodes parent w w' :
  createFolders nodes parent w = (Some tt, w') ->
  forall p, p ∈ forest_paths nodes parent -> existsSync (disk w') p = true.
Proof. rewrite createFolders_visitAll. apply visitAll_exists. Qed.

(** X14: a run removes nothing: what was there before is there after,
    whether the run completes or throws. *)
Theorem createFolders_keeps nodes parent w q :
  existsSync (disk w) q = true ->
  existsSync (disk (snd (createFolders nodes parent w))) q = true.
Proof. rewrite createFolders_visitAll. apply visitAll_keeps. Qed.

Lemma visitAll_reported ps : forall w new,
  console (snd (visitAll ps w)) = console w ++ new ->
  forall r, r ∈ new -> existsSync (disk (snd (visitAll ps w))) (report_path r) = true.
Proof.
  induction ps as [|p ps IH]; intros w new Hnew r Hr.
  - simpl in Hnew. rewrite <- (app_nil_r (console w)) in Hnew at 1.
    apply app_inv_head in Hnew as <-. inversion Hr.
  - rewrite visitAll_cons in *. pose proof (visit_log p w) as Hlog.
    destruct (visit p w) as [[[]|] w1] eqn:Hp.
    + destruct Hlog as (r1 & Hr1 & Hpath).
      destruct (visitAll_console ps w1) as (new' & Hnew').
      assert (new = r1 :: new') as ->.
      { rewrite Hnew', Hr1, <- app_assoc in Hnew.
        now apply app_inv_head in Hnew. }
      apply elem_of_cons in Hr as [->|Hr].
      * rewrite Hpath. apply visitAll_keeps. now apply (visit_exists p w).
      * now apply (IH w1 new').
    + simpl in Hnew. rewrite Hlog in Hnew.
      rewrite <- (app_nil_r (console w)) in Hnew at 1.
      apply app_inv_head in Hnew as <-. inversion Hr.
Qed.

(** X15: what the log reports is true of the disk at the end: every path
    reported, as created or as existing, is there, also when the run is cut
    short by an error. *)
Theorem createFolders_reported nodes parent w new :
  console (snd (createFolders nodes parent w)) = console w ++ new ->
  forall r, r ∈ new ->
    existsSync (disk (snd (createFolders nodes parent w))) (report_path r)
    = true.
Proof. rewrite createFolders_visitAll. apply visitAll_reported. Qed.

Lemma visitAll_created ps : forall w new,
  console (snd (visitAll ps w)) = console w ++ new ->
  NoDup (created_paths new)
  /\ forall p, p ∈ created_paths new -> existsSync (disk w) p = false.
Proof.
  induction ps as [|p ps IH]; intros w new Hnew.
  - simpl in Hnew. rewrite <- (app_nil_r (console w)) in Hnew at 1.
    apply app_inv_head in Hnew as <-. split; [constructor|]. intros q Hq.
    inversion Hq.
  - rewrite visitAll_cons, visit_run in Hnew.
    destruct (existsSync (disk w) p) eqn:Hex.
    + destruct (visitAll_console ps
                  (World (disk w) (console w ++ [Exists p]))) as (new' & Hnew').
      assert (new = Exists p :: new') as ->.
      { rewrite Hnew' in Hnew. simpl in Hnew. rewrite <- app_assoc in Hnew.
        now apply app_inv_head in Hnew. }
      apply (IH _ new' Hnew').
    + destruct (mkdirSync (disk w) p) as [fs' []] eqn:Hmk.
      * destruct (visitAll_console ps
                    (World fs' (console w ++ [Created p]))) as (new' & Hnew').
        assert (new = Created p :: new') as ->.
        { rewrite Hnew' in Hnew. simpl in Hnew. rewrite <- app_assoc in Hnew.
          now apply app_inv_head in Hnew. }
        destruct (IH _ new' Hnew') as [Hnd Hfresh]. simpl in Hfresh.
        unfold created_paths in *. csimpl. split.
        -- constructor; [|exact Hnd]. intros Hin.
           apply Hfresh in Hin. rewrite (mkdir_creates _ _ _ Hmk) in Hin.
           discriminate.
        -- intros q Hq. apply elem_of_cons in Hq as [->|Hq]; [exact Hex|].
           apply Hfresh in Hq.
           destruct (existsSync (disk w) q) eqn:Hq0; [|reflexivity].
           rewrite (mkdir_keeps _ _ _ _ q Hmk Hq0) in Hq. discriminate.
      * simpl in Hnew. rewrite <- (app_nil_r (console w)) in Hnew at 1.
        apply app_inv_head in Hnew as <-. split; [constructor|].
        intros q Hq. inversion Hq.
Qed.

(** X16: no path is reported as created twice in a run, and a path reported
    as created was not there when the run started. *)
Theorem createFolders_created_fresh nodes parent w new :
  console (snd (createFolders nodes parent w)) = console w ++ new ->
  NoDup (created_paths new)
  /\ forall p, p ∈ created_paths new -> existsSync (disk w) p = false.
Proof. rewrite createFolders_visitAll. apply visitAll_created. Qed.

(** X17: running again after an error resumes. The first run stopped at
    the first path that was not there and at which [mkdirSync] threw, having
    reported just the paths before it; the second run, on the disk the first
    one left, reports each of those paths as existing, in order and leaving
    the disk as it is, then visits the path that failed again, and after it
    the rest. *)
Theorem createFolders_retry nodes parent w w' new :
  createFolders nodes parent w = (None, w') ->
  console w' = console w ++ new ->
  exists p after w1,
    forest_paths nodes parent = (report_path <$> new) ++ p :: after
    /\ visitAll (report_path <$> new) w = (Some tt, w1)
    /\ existsSync (disk w1) p = false
    /\ mkdirSync (disk w1) p = (disk w', Thrown)
    /\ createFolders nodes parent w'
       = (visit p ;; visitAll after)
           (World (disk w')
                  (console w' ++ (Exists <$> (report_path <$> new)))).
Proof.
  rewrite !createFolders_visitAll. intros Hrun Hnew.
  destruct (visitAll_thrown_inv _ w w' Hrun)
    as (before & p & after & w1 & Hps & Hb & Hex & Hmk & Hcon).
  destruct (visitAll_log before w) as (new0 & rest & Hnew0 & Hbefore & Hc).
  rewrite Hb in Hnew0, Hc. simpl in Hnew0, Hc. subst rest.
  rewrite app_nil_r in Hbefore.
  assert (new0 = new) as ->.
  { rewrite Hcon, Hnew0 in Hnew. now apply app_inv_head in Hnew. }
  subst before. exists p, after, w1. repeat split; try assumption.
  rewrite Hps, visitAll_app, visitAll_present; [reflexivity|].
  intros q Hq. apply (mkdir_keeps _ _ _ _ q Hmk).
  now apply (visitAll_exists _ w w1 Hb).
Qed.
End Runs.

(** ** main *)

Lemma render_not_done r : render r <> done_line.
Proof. destruct r; discriminate. Qed.

Lemma banner_not_done name dir : banner name dir <> done_line.
Proof. discriminate. Qed.

Lemma last_log_not_done name dir (log : list report) :
  last (banner name dir :: (render <$> log)) <> Some done_line.
Proof.
  rewrite last_cons, fmap_last. destruct (last log) as [r|]; simpl.
  - intros E. apply (render_not_done r). congruence.
  - intros E. apply (banner_not_done name dir). congruence.
Qed.

Section MainRuns.
Context {FS : Type} `{Host FS} `{HostRead FS}.

Lemma accepted_true pr (fs : FS) :
  accepted pr fs = true ->
  bool_decide (argv pr !! 2%nat = Some (str "create")) = true
  /\ falsy (argv pr !! 3%nat) = false
  /\ existsSync fs (templatePath pr) = true.
Proof.
  unfold accepted. intros E. apply andb_prop in E as [E E3].
  apply andb_prop in E as [E1 E2]. apply negb_true_iff in E2. now repeat split.
Qed.

Lemma main_accepted pr (fs : FS) dir :
  accepted pr fs = true -> cwd pr = Some dir ->
  main pr fs
  = match readFileSync fs (templatePath pr) with
    | None =>
        Outcome Uncaught [banner (default [] (argv pr !! 3%nat)) dir] [] fs
    | Some content =>
        match buildTree (split_nl content) with
        | None =>
            Outcome Uncaught [banner (default [] (argv pr !! 3%nat)) dir] [] fs
        | Some tree =>
            match createFolders tree dir (World fs []) with
            | (Some _, w) =>
                Outcome Returned
                  (banner (default [] (argv pr !! 3%nat)) dir
                   :: (render <$> console w) ++ [done_line]) [] (disk w)
            | (None, w) =>
                Outcome Uncaught
                  (banner (default [] (argv pr !! 3%nat)) dir
                   :: (render <$> console w)) [] (disk w)
            end
        end
    end.
Proof.
  intros Hacc Hdir. destruct (accepted_true pr fs Hacc) as (E1 & E2 & E3).
  unfold main. now rewrite E1, E2, E3, Hdir.
Qed.

(** When [process.cwd()] throws, nothing has been logged yet. *)
Lemma main_no_cwd pr (fs : FS) :
  accepted pr fs = true -> cwd pr = None ->
  main pr fs = Outcome Uncaught [] [] fs.
Proof.
  intros Hacc Hdir. destruct (accepted_true pr fs Hacc) as (E1 & E2 & E3).
  unfold main. now rewrite E1, E2, E3, Hdir.
Qed.

Lemma main_refused pr (fs : FS) :
  accepted pr fs = false ->
  ended (main pr fs) = Exited 1 /\ logged (main pr fs) = []
  /\ length (errored (main pr fs)) = 2%nat /\ disk_after (main pr fs) = fs.
Proof.
  unfold accepted, main.
  destruct (bool_decide _); simpl; [|now repeat split].
  destruct (falsy _); simpl; [now repeat split|].
  destruct (existsSync fs (templatePath pr)); simpl; [discriminate|].
  now repeat split.
Qed.

(** X18: a call that is not [create <template>] with a template that is
    there ends with status 1 before anything is done: two lines on the
    error stream, nothing logged, the disk untouched. *)
Theorem main_rejects pr (fs : FS) :
  accepted pr fs = false ->
  exit_status (ended (main pr fs)) = 1 /\ logged (main pr fs) = []
  /\ length (errored (main pr fs)) = 2%nat /\ disk_after (main pr fs) = fs.
Proof.
  intros Hno. destruct (main_refused pr fs Hno) as (-> & Hrest). now split.
Qed.

(** X19: for an accepted call, with a working directory and a template
    that can be read, the program is the parser followed by [createFolders]
    under the working directory: it logs the banner, one line per report,
    and, only when the run completes, the closing line; parsing never makes
    it fail. *)
Theorem main_pipeline pr (fs : FS) dir content :
  accepted pr fs = true ->
  cwd pr = Some dir ->
  readFileSync fs (templatePath pr) = Some content ->
  exists forest,
    parse content = Some forest
    /\ main pr fs
       = let run := createFolders forest dir (World fs []) in
         Outcome (if fst run is Some _ then Returned else Uncaught)
           (banner (default [] (argv pr !! 3%nat)) dir
            :: (render <$> console (snd run))
            ++ (if fst run is Some _ then [done_line] else []))
           [] (disk (snd run)).
Proof.
  intros Hacc Hdir Hread. rewrite (main_accepted pr fs dir Hacc Hdir), Hread.
  unfold parse. rewrite buildTree_forest.
  eexists. split; [reflexivity|].
  destruct (createFolders _ _ _) as [[[]|] w]; simpl; [reflexivity|].
  now rewrite app_nil_r.
Qed.

(** X20: the status is 0 exactly when the last thing logged is the closing
    line. *)
Theorem main_done_iff pr (fs : FS) :
  exit_status (ended (main pr fs)) = 0
  <-> last (logged (main pr fs)) = Some done_line.
Proof.
  destruct (accepted pr fs) eqn:Hacc.
  - destruct (cwd pr) as [dir|] eqn:Hdir;
      [|rewrite (main_no_cwd pr fs Hacc Hdir); split; discriminate].
    rewrite (main_accepted pr fs dir Hacc Hdir).
    destruct (readFileSync fs (templatePath pr)) as [content|]; simpl;
      [|split; discriminate].
    destruct (buildTree (split_nl content)) as [tree|]; simpl;
      [|split; discriminate].
    destruct (createFolders _ _ _) as [[[]|] w]; simpl ended; simpl logged.
    + rewrite app_comm_cons, last_snoc. now split.
    + split; [discriminate|]. intros E. now apply last_log_not_done in E.
  - destruct (main_refused pr fs Hacc) as (-> & -> & _). simpl.
    split; discriminate.
Qed.

(** X21: the program is ended by an uncaught error only for an accepted
    call and in three ways only: [process.cwd()] throws, before anything is
    logged; reading the template throws, after the banner; or, in the run
    of [createFolders] over the forest of the template, [mkdirSync] throws
    at the first path that is not there, and the disk is left as that call
    left it. In the first two cases the disk is untouched. The closing line
    is never logged. *)
Theorem main_uncaught pr (fs : FS) :
  ended (main pr fs) = Uncaught ->
  accepted pr fs = true
  /\ last (logged (main pr fs)) <> Some done_line
  /\ ((cwd pr = None /\ logged (main pr fs) = []
       /\ disk_after (main pr fs) = fs)
      \/ (exists dir,
            cwd pr = Some dir
            /\ readFileSync fs (templatePath pr) = None
            /\ logged (main pr fs)
               = [banner (default [] (argv pr !! 3%nat)) dir]
            /\ disk_after (main pr fs) = fs)
      \/ (exists dir content forest before p after w1,
            cwd pr = Some dir
            /\ readFileSync fs (templatePath pr) = Some content
            /\ parse content = Some forest
            /\ forest_paths forest dir = before ++ p :: after
            /\ visitAll before (World fs []) = (Some tt, w1)
            /\ existsSync (disk w1) p = false
            /\ mkdirSync (disk w1) p = (disk_after (main pr fs), Thrown))).
Proof.
  destruct (accepted pr fs) eqn:Hacc.
  - intros Hend. split; [reflexivity|].
    destruct (cwd pr) as [dir|] eqn:Hdir.
    + rewrite (main_accepted pr fs dir Hacc Hdir) in *.
      destruct (readFileSync fs (templatePath pr)) as [content|] eqn:Hread.
      * rewrite buildTree_forest in *.
        destruct (createFolders _ _ _) as [[[]|] w] eqn:Hrun;
          simpl in *; [discriminate|].
        split; [apply last_log_not_done|]. right. right.
        rewrite createFolders_visitAll in Hrun.
        destruct (visitAll_thrown_inv _ _ _ Hrun)
          as (before & p & after & w1 & Hps & Hb & Hex & Hmk & _).
        exists dir, content, (forest_by_parent (records (split_nl content))),
          before, p, after, w1.
        repeat split; try assumption. apply buildTree_forest.
      * simpl. split; [discriminate|]. right. left. exists dir. now repeat split.
    + rewrite (main_no_cwd pr fs Hacc Hdir). simpl.
      split; [discriminate|]. left. now repeat split.
  - destruct (main_refused pr fs Hacc) as (-> & _). discriminate.
Qed.

Context `{!HostLaws FS}.

(** X22: when the program ends with status 0, the template was read and
    every folder of its forest is there under the working directory. *)
Theorem main_folders_exist pr (fs : FS) :
  exit_status (ended (main pr fs)) = 0 ->
  exists content forest dir,
    cwd pr = Some dir
    /\ readFileSync fs (templatePath pr) = Some content
    /\ parse content = Some forest
    /\ forall p, p ∈ forest_paths forest dir ->
         existsSync (disk_after (main pr fs)) p = true.
Proof.
  destruct (accepted pr fs) eqn:Hacc.
  - destruct (cwd pr) as [dir|] eqn:Hdir;
      [|rewrite (main_no_cwd pr fs Hacc Hdir); discriminate].
    rewrite (main_accepted pr fs dir Hacc Hdir).
    destruct (readFileSync fs (templatePath pr)) as [content|]; simpl;
      [|discriminate].
    rewrite buildTree_forest.
    destruct (createFolders _ _ _) as [[[]|] w] eqn:Hrun; simpl;
      [|discriminate].
    intros _.
    exists content, (forest_by_parent (records (split_nl content))), dir.
    split; [reflexivity|]. split; [reflexivity|].
    split; [apply buildTree_forest|].
    rewrite createFolders_visitAll in Hrun.
    now apply (visitAll_exists _ _ _ Hrun).
  - destruct (main_refused pr fs Hacc) as (-> & _). discriminate.
Qed.
End MainRuns.

(** ** Runs on the small hosts *)

#[global] Instance shelf_laws : HostLaws Shelf.disk.
Proof.
  split.
  - intros fs p fs'. simpl.
    destruct (Flat.mem p (Shelf.denied fs)); [discriminate|].
    intros [= <-]. simpl. rewrite path_eqb_refl. apply orb_true_r.
  - intros fs p fs' c q. simpl.
    destruct (Flat.mem p (Shelf.denied fs)); intros [= <- <-] Hq; [exact Hq|].
    simpl. apply orb_prop in Hq as [->| ->]; [reflexivity|].
    now rewrite !orb_true_r.
Qed.

Lemma createFolders_complete_witness :
  createFolders Flat.sample (str "/r") (Flat.fresh [])
  = (Some tt, snd (createFolders Flat.sample (str "/r") (Flat.fresh [])))
  /\ forall p, p ∈ forest_paths Flat.sample (str "/r") ->
       existsSync
         (disk (snd (createFolders Flat.sample (str "/r") (Flat.fresh [])))) p
       = true.
Proof.
  split; [reflexivity|].
  apply (createFolders_complete Flat.sample (str "/r") (Flat.fresh [])).
  reflexivity.
Defined.

Lemma createFolders_keeps_witness :
  existsSync
    (disk (snd (createFolders Flat.sample (str "/r")
                  (World (Flat.Disk [str "/keep"] [str "/r/a"]) []))))
    (str "/keep")
  = true.
Proof.
  apply (createFolders_keeps Flat.sample (str "/r")
           (World (Flat.Disk [str "/keep"] [str "/r/a"]) []) (str "/keep")).
  reflexivity.
Defined.

Lemma createFolders_reported_witness :
  console (snd (createFolders Flat.sample (str "/r")
                  (Flat.fresh [str "/r/a/b"])))
  = [] ++ [Created (str "/r/a")]
  /\ forall r, r ∈ [Created (str "/r/a")] ->
       existsSync
         (disk (snd (createFolders Flat.sample (str "/r")
                       (Flat.fresh [str "/r/a/b"]))))
         (report_path r)
       = true.
Proof.
  split; [reflexivity|].
  apply (createFolders_reported Flat.sample (str "/r")
           (Flat.fresh [str "/r/a/b"]) [Created (str "/r/a")]).
  reflexivity.
Defined.

Lemma createFolders_created_fresh_witness :
  NoDup (created_paths
           [Exists (str "/r/a"); Created (str "/r/a/b"); Created (str "/r/c")])
  /\ forall p,
       p ∈ created_paths
             [Exists (str "/r/a"); Created (str "/r/a/b"); Created (str "/r/c")] ->
       existsSync (Flat.Disk [str "/r/a"] []) p = false.
Proof.
  apply (createFolders_created_fresh Flat.sample (str "/r")
           (World (Flat.Disk [str "/r/a"] []) [])
           [Exists (str "/r/a"); Created (str "/r/a/b"); Created (str "/r/c")]).
  reflexivity.
Defined.

Lemma createFolders_retry_witness :
  exists p after w1,
    forest_paths Flat.sample (str "/r")
    = (report_path <$> [Created (str "/r/a")]) ++ p :: after
    /\ visitAll (report_path <$> [Created (str "/r/a")])
         (Flat.fresh [str "/r/a/b"]) = (Some tt, w1)
    /\ existsSync (disk w1) p = false
    /\ mkdirSync (disk w1) p
       = (Flat.Disk [str "/r/a"] [str "/r/a/b"], Thrown)
    /\ createFolders Flat.sample (str "/r")
         (World (Flat.Disk [str "/r/a"] [str "/r/a/b"]) [Created (str "/r/a")])
       = (visit p ;; visitAll after)
           (World (Flat.Disk [str "/r/a"] [str "/r/a/b"])
                  ([Created (str "/r/a")]
                   ++ (Exists <$> (report_path <$> [Created (str "/r/a")])))).
Proof.
  apply (createFolders_retry Flat.sample (str "/r") (Flat.fresh [str "/r/a/b"])
           (World (Flat.Disk [str "/r/a"] [str "/r/a/b"])
                  [Created (str "/r/a")])
           [Created (str "/r/a")]); reflexivity.
Defined.

Lemma main_rejects_witness :
  exit_status
    (ended (main (Process [str "node"; str "create.js"; str "create"]
                          (str "/app") (Some (str "/home")))
                 (Shelf.shelf false))) = 1
  /\ logged (main (Process [str "node"; str "create.js"; str "create"]
                           (str "/app") (Some (str "/home")))
                  (Shelf.shelf false)) = []
  /\ length (errored
               (main (Process [str "node"; str "create.js"; str "create"]
                              (str "/app") (Some (str "/home")))
                     (Shelf.shelf false))) = 2%nat
  /\ disk_after (main (Process [str "node"; str "create.js"; str "create"]
                               (str "/app") (Some (str "/home")))
                      (Shelf.shelf false)) = Shelf.shelf false.
Proof.
  apply (main_rejects (Process [str "node"; str "create.js"; str "create"]
                               (str "/app") (Some (str "/home")))
           (Shelf.shelf false)).
  reflexivity.
Defined.

Lemma main_pipeline_witness :
  exists forest,
    parse (joinLF [str "a"; str "    b"; str "c"; []]) = Some forest
    /\ main Shelf.call (Shelf.shelf false)
       = let run := createFolders forest (str "/home")
                      (World (Shelf.shelf false) []) in
         Outcome (if fst run is Some _ then Returned else Uncaught)
           (banner (default [] (argv Shelf.call !! 3%nat)) (str "/home")
            :: (render <$> console (snd run))
            ++ (if fst run is Some _ then [done_line] else []))
           [] (disk (snd run)).
Proof.
  apply (main_pipeline Shelf.call (Shelf.shelf false) (str "/home")
           (joinLF [str "a"; str "    b"; str "c"; []])); reflexivity.
Defined.

Lemma main_uncaught_witness :
  accepted Shelf.call (Shelf.shelf true) = true
  /\ last (logged (main Shelf.call (Shelf.shelf true))) <> Some done_line
  /\ ((cwd Shelf.call = None /\ logged (main Shelf.call (Shelf.shelf true)) = []
       /\ disk_after (main Shelf.call (Shelf.shelf true)) = Shelf.shelf true)
      \/ (exists dir,
            cwd Shelf.call = Some dir
            /\ readFileSync (Shelf.shelf true)
                 (templatePath (FS := Shelf.disk) Shelf.call) = None
            /\ logged (main Shelf.call (Shelf.shelf true))
               = [banner (default [] (argv Shelf.call !! 3%nat)) dir]
            /\ disk_after (main Shelf.call (Shelf.shelf true))
               = Shelf.shelf true)
      \/ (exists dir content forest before p after w1,
            cwd Shelf.call = Some dir
            /\ readFileSync (Shelf.shelf true)
                 (templatePath (FS := Shelf.disk) Shelf.call) = Some content
            /\ parse content = Some forest
            /\ forest_paths (FS := Shelf.disk) forest dir
               = before ++ p :: after
            /\ visitAll before (World (Shelf.shelf true) []) = (Some tt, w1)
            /\ existsSync (disk w1) p = false
            /\ mkdirSync (disk w1) p
               = (disk_after (main Shelf.call (Shelf.shelf true)), Thrown))).
Proof.
  apply (main_uncaught Shelf.call (Shelf.shelf true)). reflexivity.
Defined.

Lemma main_folders_exist_witness :
  exists content forest dir,
    cwd Shelf.call = Some dir
    /\ readFileSync (Shelf.shelf false)
         (templatePath (FS := Shelf.disk) Shelf.call) = Some content
    /\ parse content = Some forest
    /\ forall p, p ∈ forest_paths (FS := Shelf.disk) forest dir ->
         existsSync (disk_after (main Shelf.call (Shelf.shelf false))) p = true.
Proof.
  apply (main_folders_exist Shelf.call (Shelf.shelf false)). reflexivity.
Defined.

(** When the working directory is gone the program ends at once. *)
Example main_cwd_gone :
  main (Process (argv Shelf.call) (str "/app") None) (Shelf.shelf false)
  = Outcome Uncaught [] [] (Shelf.shelf false).
Proof. reflexivity. Qed.

(** The whole program on the small host with files. *)
Example main_run :
  main Shelf.call (Shelf.shelf false)
  = Outcome Returned
      [banner (str "personal") (str "/home");
       str "Created: /home/a"; str "Created: /home/a/b";
       str "Created: /home/c"; done_line]
      []
      (Shelf.Disk (Shelf.files (Shelf.shelf false))
                  [str "/home/c"; str "/home/a/b"; str "/home/a"] []).
Proof. reflexivity. Qed.

Example main_template_missing :
  main (Process [str "node"; str "create.js"; str "create"; str "work"]
                (str "/app") (Some (str "/home")))
       (Shelf.shelf false)
  = Outcome (Exited 1) []
      [str "Error: Template not found: work";
       str "Looking for: /app/templates/work.txt"]
      (Shelf.shelf false).
Proof. reflexivity. Qed.

(** ** The program run twice, and what it logs *)

Lemma node_paths_length {FS : Type} `{Host FS} node : forall parent,
  length (node_paths node parent) = length (preorder node).
Proof.
  induction node as [n kids IH] using tree_ind_forall. intros parent.
  simpl. f_equal. generalize (join parent n). intros p.
  induction IH as [|k kids Hk _ IHkids]; [reflexivity|].
  simpl. now rewrite !length_app, Hk, IHkids.
Qed.

Lemma forest_paths_length {FS : Type} `{Host FS} (f : forest) parent :
  length (forest_paths f parent) = length (preorder_forest f).
Proof.
  unfold forest_paths, preorder_forest.
  induction f as [|t f IH]; [reflexivity|].
  simpl. now rewrite !length_app, node_paths_length, IH.
Qed.

Section MainTwice.
Context {FS : Type} `{Host FS} `{HostRead FS}.

(** X23: when the program ends with status 0 it has logged, between the
    banner and the closing line, exactly one line for each line of the
    template that is not blank. *)
Theorem main_one_line_per_entry pr (fs : FS) :
  exit_status (ended (main pr fs)) = 0 ->
  exists content,
    readFileSync fs (templatePath pr) = Some content
    /\ length (logged (main pr fs))
       = (2 + length (List.filter (fun l => negb (blank l))
                                  (split_nl content)))%nat.
Proof.
  destruct (accepted pr fs) eqn:Hacc.
  - destruct (cwd pr) as [dir|] eqn:Hdir;
      [|rewrite (main_no_cwd pr fs Hacc Hdir); discriminate].
    rewrite (main_accepted pr fs dir Hacc Hdir).
    destruct (readFileSync fs (templatePath pr)) as [content|]; simpl;
      [|discriminate].
    rewrite buildTree_forest.
    set (forest := forest_by_parent (records (split_nl content))).
    pose proof (visitAll_log (forest_paths forest dir) (World fs []))
      as (new & rest & Hnew & Hps & Hc).
    rewrite <- createFolders_visitAll in Hnew, Hc.
    destruct (createFolders forest dir (World fs [])) as [[[]|] w];
      simpl in *; [|discriminate].
    intros _. exists content. split; [reflexivity|].
    subst rest. rewrite app_nil_r in Hps.
    rewrite length_app, length_fmap, Hnew. simpl. f_equal.
    rewrite Nat.add_1_r. f_equal.
    rewrite <- (length_fmap report_path new), <- Hps, forest_paths_length.
    unfold forest. rewrite preorder_forest_by_parent, content_records.
    now rewrite length_fmap.
  - destruct (main_refused pr fs Hacc) as (-> & _). discriminate.
Qed.

Context `{!HostLaws FS} `{!HostReadLaws FS}.

Lemma visit_read p w q :
  readFileSync (disk (snd (visit p w))) q = readFileSync (disk w) q.
Proof.
  rewrite visit_run. destruct (existsSync (disk w) p); [reflexivity|].
  destruct (mkdirSync (disk w) p) as [fs c] eqn:E.
  pose proof (mkdir_keeps_files _ _ _ _ q E). now destruct c.
Qed.

Lemma visitAll_read ps : forall w q,
  readFileSync (disk (snd (visitAll ps w))) q = readFileSync (disk w) q.
Proof.
  induction ps as [|p ps IH]; intros w q; [reflexivity|].
  rewrite visitAll_cons. pose proof (visit_read p w q) as Hp.
  destruct (visit p w) as [[[]|] w1]; [|exact Hp].
  rewrite IH. exact Hp.
Qed.

(** X24: run again after a run that ended with status 0, the program ends
    with status 0 again, reports every folder of the template as existing
    and leaves the disk as it found it. *)
Theorem main_twice pr (fs : FS) :
  exit_status (ended (main pr fs)) = 0 ->
  exists content forest dir,
    cwd pr = Some dir
    /\ readFileSync fs (templatePath pr) = Some content
    /\ parse content = Some forest
    /\ main pr (disk_after (main pr fs))
       = Outcome Returned
           (banner (default [] (argv pr !! 3%nat)) dir
            :: (render <$> (Exists <$> forest_paths forest dir))
            ++ [done_line])
           [] (disk_after (main pr fs)).
Proof.
  destruct (accepted pr fs) eqn:Hacc.
  - destruct (cwd pr) as [dir|] eqn:Hdir;
      [|rewrite (main_no_cwd pr fs Hacc Hdir); discriminate].
    rewrite (main_accepted pr fs dir Hacc Hdir).
    destruct (accepted_true pr fs Hacc) as (E1 & E2 & E3).
    destruct (readFileSync fs (templatePath pr)) as [content|] eqn:Hread;
      simpl; [|discriminate].
    rewrite buildTree_forest.
    set (forest := forest_by_parent (records (split_nl content))).
    destruct (createFolders forest dir (World fs [])) as [[[]|] w] eqn:Hrun;
      simpl; [|discriminate].
    intros _. exists content, forest, dir.
    split; [reflexivity|]. split; [reflexivity|].
    split; [apply buildTree_forest|].
    rewrite createFolders_visitAll in Hrun.
    assert (disk w = disk (snd (visitAll (forest_paths forest dir)
                                  (World fs [])))) as Hw by now rewrite Hrun.
    assert (accepted pr (disk w) = true) as Hacc'.
    { unfold accepted. rewrite E1, E2. simpl. rewrite Hw.
      now apply visitAll_keeps. }
    rewrite (main_accepted pr (disk w) dir Hacc' Hdir).
    rewrite Hw at 1. rewrite visitAll_read. simpl disk. rewrite Hread.
    rewrite buildTree_forest. fold forest.
    rewrite createFolders_visitAll, visitAll_present; [reflexivity|].
    simpl. now apply (visitAll_exists _ _ _ Hrun).
  - destruct (main_refused pr fs Hacc) as (-> & _). discriminate.
Qed.
End MainTwice.

#[global] Instance shelf_read_laws : HostReadLaws Shelf.disk.
Proof.
  split. intros fs p fs' c q. simpl.
  destruct (Flat.mem p (Shelf.denied fs)); now intros [= <- <-].
Qed.

Lemma main_one_line_per_entry_witness :
  exists content,
    readFileSync (Shelf.shelf false) (templatePath (FS := Shelf.disk) Shelf.call)
    = Some content
    /\ length (logged (main Shelf.call (Shelf.shelf false)))
       = (2 + length (List.filter (fun l => negb (blank l))
                                  (split_nl content)))%nat.
Proof.
  apply (main_one_line_per_entry Shelf.call (Shelf.shelf false)). reflexivity.
Defined.

Lemma main_twice_witness :
  exists content forest dir,
    cwd Shelf.call = Some dir
    /\ readFileSync (Shelf.shelf false)
         (templatePath (FS := Shelf.disk) Shelf.call) = Some content
    /\ parse content = Some forest
    /\ main Shelf.call (disk_after (main Shelf.call (Shelf.shelf false)))
       = Outcome Returned
           (banner (default [] (argv Shelf.call !! 3%nat)) dir
            :: (render <$> (Exists <$> forest_paths (FS := Shelf.disk) forest
                                         dir))
            ++ [done_line])
           [] (disk_after (main Shelf.call (Shelf.shelf false))).
Proof.
  apply (main_twice Shelf.call (Shelf.shelf false)). reflexivity.
Defined.

(** ** The shape of the forest determines the parents *)

Lemma fmap_flat_map_opt {A B} (h : B -> jsstring) (g : A -> list B) (l : list A) :
  h <$> flat_map g l = flat_map (fun k => h <$> g k) l.
Proof.
  induction l as [|k l IH]; [reflexivity|]. simpl. now rewrite fmap_app, IH.
Qed.

Lemma fdepths_omap {A} d (g : A -> option tree) (l : list A) :
  fdepths d (omap g l)
  = flat_map (fun k => match g k with Some t => tdepths d t | None => [] end) l.
Proof.
  induction l as [|k l IH]; [reflexivity|]. csimpl.
  destruct (g k) as [t|]; simpl; [|exact IH].
  unfold fdepths in *. simpl. now rewrite IH.
Qed.

Lemma nearest_levels r1 r2 d i :
  level <$> r1 = level <$> r2 ->
  nearest_shallower r1 d i = nearest_shallower r2 d i.
Proof.
  intros E. induction i as [|i IH]; [reflexivity|]. simpl.
  assert (level <$> r1 !! i = level <$> r2 !! i) as Ei
    by now rewrite <- !list_lookup_fmap, E.
  destruct (r1 !! i) as [a|], (r2 !! i) as [b|]; simpl in Ei; try discriminate.
  - injection Ei as ->. now rewrite IH.
  - exact IH.
Qed.

Lemma parent_levels r1 r2 k :
  level <$> r1 = level <$> r2 -> parent_of r1 k = parent_of r2 k.
Proof.
  intros E. unfold parent_of.
  assert (level <$> r1 !! k = level <$> r2 !! k) as Ek
    by now rewrite <- !list_lookup_fmap, E.
  destruct (r1 !! k) as [a|], (r2 !! k) as [b|]; simpl in *; try discriminate.
  - injection Ek as ->. now apply nearest_levels.
  - reflexivity.
Qed.

Lemma relabel_levels g recs : level <$> relabel g recs = level <$> recs.
Proof.
  apply list_eq. intros i. unfold relabel.
  rewrite !list_lookup_fmap, list_lookup_imap.
  now destruct (recs !! i).
Qed.

Lemma relabel_contents g recs :
  content <$> relabel g recs = g <$> seq 0 (length recs).
Proof.
  apply list_eq. intros i. unfold relabel.
  rewrite !list_lookup_fmap, list_lookup_imap.
  destruct (recs !! i) as [r|] eqn:Hi; simpl.
  - rewrite lookup_seq_lt by now apply lookup_lt_Some in Hi. reflexivity.
  - rewrite lookup_ge_None_2; [reflexivity|].
    rewrite length_seq. now apply lookup_ge_None.
Qed.

Lemma relabel_length g recs : length (relabel g recs) = length recs.
Proof. apply length_imap. Qed.

Lemma relabel_lookup g recs k :
  relabel g recs !! k = (fun r => Parsed (level r) (g k)) <$> recs !! k.
Proof. apply list_lookup_imap. Qed.

Section Depth.
Local Open Scope nat_scope.
Variable recs : list parsed.

Lemma depth_fuel_irrel : forall f1 f2 k,
  k < f1 -> k < f2 -> depth_fuel f1 recs k = depth_fuel f2 recs k.
Proof.
  induction f1 as [|f1 IH]; intros f2 k H1 H2; [lia|].
  destruct f2 as [|f2]; [lia|]. simpl.
  destruct (parent_of recs k) as [j|] eqn:E; [|reflexivity].
  apply parent_of_lt in E. f_equal. apply IH; lia.
Qed.

Lemma depth_of_eq k :
  depth_of recs k = child_depth recs (parent_of recs k).
Proof.
  unfold depth_of, child_depth. simpl.
  destruct (parent_of recs k) as [j|] eqn:E; [|reflexivity].
  apply parent_of_lt in E. f_equal. apply depth_fuel_irrel; lia.
Qed.

(** The depths read off the forest are the numbers of ancestors. *)
Lemma fdepths_forest_under fuel : forall p,
  depth_code <$> fdepths (child_depth recs p) (forest_under fuel recs p)
  = preorder_forest
      (forest_under fuel
         (relabel (fun k => depth_code (depth_of recs k)) recs) p).
Proof.
  set (rd := relabel (fun k => depth_code (depth_of recs k)) recs).
  assert (length rd = length recs) as Hlen by apply relabel_length.
  assert (forall k, parent_of rd k = parent_of recs k) as Hpar
    by (intros k; apply parent_levels, relabel_levels).
  assert (forall k, rd !! k
            = (fun r => Parsed (level r) (depth_code (depth_of recs k)))
                <$> recs !! k) as Hlook
    by (intros k; exact (relabel_lookup
                           (fun k => depth_code (depth_of recs k)) recs k)).
  induction fuel as [|fuel IH]; intros p; [reflexivity|].
  cbn [forest_under]. rewrite Hlen.
  rewrite fdepths_omap, preorder_omap, fmap_flat_map_opt.
  apply flat_map_ext_in. intros k _. rewrite Hpar, Hlook.
  destruct (recs !! k) as [r|]; simpl; [|reflexivity].
  destruct (decide (parent_of recs k = p)) as [E|]; [|reflexivity].
  simpl. rewrite depth_of_eq, E. f_equal.
  fold (fdepths (S (child_depth recs p))
          (forest_under fuel recs (Some k))).
  fold (preorder_forest (forest_under fuel rd (Some k))).
  rewrite <- IH. simpl. now rewrite depth_of_eq, E.
Qed.

Lemma fdepths_forest_by_parent :
  depth_code <$> fdepths 0 (forest_by_parent recs)
  = (fun k => depth_code (depth_of recs k)) <$> seq 0 (length recs).
Proof.
  unfold forest_by_parent.
  change (fdepths 0) with (fdepths (child_depth recs None)).
  rewrite (fdepths_forest_under (S (length recs)) None).
  rewrite <- relabel_contents, <- preorder_forest_by_parent.
  unfold forest_by_parent. now rewrite relabel_length.
Qed.
End Depth.

Lemma nearest_less_zero dep i : nearest_less dep 0 i = None.
Proof. induction i as [|i IH]; [reflexivity|exact IH]. Qed.

Lemma nearest_less_found dep d i j :
  (j < i)%nat -> (dep j < d)%nat ->
  (forall m, (j < m < i)%nat -> (d <= dep m)%nat) ->
  nearest_less dep d i = Some j.
Proof.
  induction i as [|i IH]; intros Hj Hd Hbetween; [lia|]. simpl.
  destruct (decide (i = j)) as [->|Hne].
  - destruct (Nat.ltb_spec (dep j) d); [reflexivity|lia].
  - pose proof (Hbetween i ltac:(lia)).
    destruct (Nat.ltb_spec (dep i) d); [lia|].
    apply IH; [lia|exact Hd|]. intros m Hm. apply Hbetween. lia.
Qed.

Lemma nearest_less_ext dep1 dep2 d i :
  (forall j, (j < i)%nat -> dep1 j = dep2 j) ->
  nearest_less dep1 d i = nearest_less dep2 d i.
Proof.
  induction i as [|i IH]; intros H; [reflexivity|]. simpl.
  rewrite (H i) by lia. rewrite IH; [reflexivity|]. intros j Hj. apply H. lia.
Qed.

Section Shape.
Local Open Scope nat_scope.
Variable recs : list parsed.

(** Below a record that stays the shallowest, every record is nested at
    least one deeper than it. *)
Lemma depth_below j m :
  shallowest_until recs j m ->
  forall i, j < i <= m -> i < length recs ->
    S (depth_of recs j) <= depth_of recs i.
Proof.
  intros Hsh i. induction i as [i IH] using lt_wf_ind. intros Hi Hlen.
  destruct (lookup_lt_is_Some_2 recs i Hlen) as [ri Hri].
  pose proof (shallowest_parent_ge recs j m i ri Hsh Hi Hri) as Hge.
  rewrite (depth_of_eq recs i).
  destruct (parent_of recs i) as [i'|] eqn:E; simpl in *; [|unfold root in *; lia].
  apply parent_of_lt in E.
  destruct (decide (i' = j)) as [->|Hne]; [lia|].
  pose proof (IH i' ltac:(lia) ltac:(lia) ltac:(lia)). lia.
Qed.

(** The parent is the nearest earlier record that is nested less deep. *)
Lemma parent_nearest_less k :
  k < length recs ->
  parent_of recs k = nearest_less (depth_of recs) (depth_of recs k) k.
Proof.
  intros Hk. destruct (lookup_lt_is_Some_2 recs k Hk) as [rk Hrk].
  rewrite (depth_of_eq recs k).
  destruct (parent_of recs k) as [j|] eqn:E; simpl.
  - destruct (parent_Some recs k j rk Hrk E)
      as (Hlt & rj & Hrj & Hlv & Hbetween).
    symmetry. apply nearest_less_found; [exact Hlt|lia|].
    intros m Hm. apply (depth_below j k); [|lia|lia].
    exists rj. split; [exact Hrj|]. intros i ri Hi Hri.
    destruct (decide (i = k)) as [->|Hne].
    + replace ri with rk by congruence. exact Hlv.
    + specialize (Hbetween i ri ltac:(lia) Hri). lia.
  - now rewrite nearest_less_zero.
Qed.
End Shape.

(** Two lists of records with the same forest have the same parents. *)
Lemma shape_parents r1 r2 :
  forest_by_parent r1 = forest_by_parent r2 ->
  length r1 = length r2 /\ forall k, parent_of r1 k = parent_of r2 k.
Proof.
  intros E.
  pose proof (fdepths_forest_by_parent r1) as H1.
  pose proof (fdepths_forest_by_parent r2) as H2.
  rewrite E, H2 in H1. clear H2.
  assert (length r1 = length r2) as Hlen.
  { apply (f_equal length) in H1. now rewrite !length_fmap, !length_seq in H1. }
  split; [exact Hlen|].
  assert (forall k, (k < length r1)%nat -> depth_of r1 k = depth_of r2 k) as Hd.
  { intros k Hk. apply (f_equal (fun l => l !! k)) in H1.
    rewrite !list_lookup_fmap, !lookup_seq_lt in H1 by lia.
    simpl in H1. injection H1 as H1. apply Nat2N.inj in H1. now symmetry. }
  intros k. destruct (decide (k < length r1)%nat) as [Hk|Hk].
  - rewrite (parent_nearest_less r1 k Hk), (parent_nearest_less r2 k) by lia.
    rewrite (Hd k Hk). apply nearest_less_ext. intros j Hj. apply Hd. lia.
  - unfold parent_of. now rewrite !lookup_ge_None_2 by lia.
Qed.

Lemma forest_under_ext r1 r2 fuel :
  content <$> r1 = content <$> r2 ->
  (forall k, parent_of r1 k = parent_of r2 k) ->
  forall p, forest_under fuel r1 p = forest_under fuel r2 p.
Proof.
  intros Hc Hp.
  assert (length r1 = length r2) as Hlen
    by (apply (f_equal length) in Hc; now rewrite !length_fmap in Hc).
  induction fuel as [|fuel IH]; intros p; [reflexivity|].
  cbn [forest_under]. rewrite Hlen. apply omap_ext_in. intros k _.
  assert (content <$> r1 !! k = content <$> r2 !! k) as Hk
    by now rewrite <- !list_lookup_fmap, Hc.
  rewrite Hp.
  destruct (r1 !! k) as [a|], (r2 !! k) as [b|]; simpl in *; try discriminate;
    [|reflexivity].
  injection Hk as ->. destruct (decide _); [|reflexivity]. now rewrite IH.
Qed.

(** ** Carriage returns, exactly *)

Lemma cr_free_elem s : cr_free s = true <-> CR ∉ s.
Proof.
  unfold cr_free. rewrite forallb_forall. split.
  - intros H Hin. apply list_elem_of_In, H in Hin. discriminate Hin.
  - intros H c Hc. apply negb_true_iff, N.eqb_neq. intros ->.
    now apply H, list_elem_of_In.
Qed.

Lemma remove_cr_id s : cr_free s = true -> remove_cr s = s.
Proof. apply forallb_filter_id. Qed.

Lemma remove_cr_app s1 s2 : remove_cr (s1 ++ s2) = remove_cr s1 ++ remove_cr s2.
Proof. apply List.filter_app. Qed.

Lemma remove_cr_ws s :
  forallb isWhiteSpace s = true -> forallb isWhiteSpace (remove_cr s) = true.
Proof.
  induction s as [|c s IH]; simpl; [reflexivity|].
  intros H. apply andb_prop in H as [Hc Hs].
  destruct (negb (c =? CR)%N); simpl; [rewrite Hc|]; now apply IH.
Qed.

Lemma trimEnd_split s :
  exists tl, s = trimEnd s ++ tl /\ forallb isWhiteSpace tl = true.
Proof.
  exists (rev (takeWhile isWhiteSpace (rev s))). split.
  - unfold trimEnd. rewrite <- rev_app_distr, take_drop_while.
    now rewrite rev_involutive.
  - apply forallb_forall. intros c Hc%in_rev.
    pose proof (takeWhile_forallb isWhiteSpace (rev s)) as H.
    rewrite forallb_forall in H. now apply H.
Qed.

Lemma trimEnd_app_ws s tl :
  forallb isWhiteSpace tl = true -> trimEnd (s ++ tl) = trimEnd s.
Proof.
  induction tl as [|c tl IH] using rev_ind; intros H.
  - now rewrite app_nil_r.
  - rewrite forallb_app in H. apply andb_prop in H as [Htl Hc].
    simpl in Hc. rewrite andb_true_r in Hc.
    rewrite app_assoc, trimEnd_snoc_ws by exact Hc. now apply IH.
Qed.

Lemma parseLine_ws_tail line tl :
  forallb isWhiteSpace tl = true -> parseLine (line ++ tl) = parseLine line.
Proof.
  induction tl as [|c tl IH] using rev_ind; intros H.
  - now rewrite app_nil_r.
  - rewrite forallb_app in H. apply andb_prop in H as [Htl Hc].
    simpl in Hc. rewrite andb_true_r in Hc.
    rewrite app_assoc, parseLine_snoc_ws by exact Hc. now apply IH.
Qed.

(** Carriage returns in the trailing whitespace of a line: taking them out
    changes nothing of what [parseLine] returns. *)
Lemma parseLine_remove_trailing_cr line :
  cr_free (trimEnd line) = true -> parseLine (remove_cr line) = parseLine line.
Proof.
  intros H. destruct (trimEnd_split line) as (tl & E & Htl).
  remember (trimEnd line) as body eqn:Hbody. rewrite E.
  rewrite remove_cr_app, (remove_cr_id _ H).
  rewrite !parseLine_ws_tail; [reflexivity|exact Htl|now apply remove_cr_ws].
Qed.

Lemma trim_sandwich lead tl s :
  forallb isWhiteSpace lead = true -> forallb isWhiteSpace tl = true ->
  trim (lead ++ trim s ++ tl) = trim s.
Proof.
  intros Hlead Htl. unfold trim at 2 3, trimStart.
  destruct (dropWhile isWhiteSpace s) as [|c r] eqn:E.
  - apply trim_blank. unfold blank. unfold trimEnd. simpl.
    now rewrite forallb_app, Hlead, Htl.
  - apply dropWhile_head in E. rewrite (trimEnd_cons c r E).
    simpl. rewrite trim_indented by assumption.
    now rewrite trimEnd_app_ws, trimEnd_idem.
Qed.

(** No carriage return between two characters of a line that are not
    whitespace: taking the carriage returns out leaves the trimmed line as
    it is. *)
Lemma trim_remove_cr line :
  cr_free (trim line) = true -> trim (remove_cr line) = trim line.
Proof.
  intros H.
  pose proof (take_drop_while isWhiteSpace line) as Eline.
  destruct (trimEnd_split (dropWhile isWhiteSpace line)) as (tl & E & Htl).
  fold (trimStart line) in E. fold (trim line) in E.
  rewrite <- Eline at 1. fold (trimStart line). rewrite E.
  rewrite !remove_cr_app, (remove_cr_id _ H).
  apply trim_sandwich; apply remove_cr_ws; [apply takeWhile_forallb|exact Htl].
Qed.

Lemma content_parseLine line :
  content <$> parseLine line
  = if truthy (trim line) then Some (trim line) else None.
Proof. unfold parseLine. now destruct (truthy (trim line)). Qed.

Lemma records_contents_remove_cr lines :
  Forall (fun l => cr_free (trim l) = true) lines ->
  content <$> records (remove_cr <$> lines) = content <$> records lines.
Proof.
  induction 1 as [|line rest Hl _ IH]; [reflexivity|].
  unfold records in *. csimpl.
  pose proof (content_parseLine line) as E1.
  pose proof (content_parseLine (remove_cr line)) as E2.
  rewrite (trim_remove_cr line Hl) in E2.
  destruct (parseLine line) as [p|], (parseLine (remove_cr line)) as [q|];
    simpl in *; rewrite <- E1 in E2; try discriminate.
  - csimpl. injection E2 as ->. f_equal. exact IH.
  - exact IH.
Qed.

Lemma names_by_parent lines :
  preorder_forest (forest_by_parent (records lines))
  = trim <$> List.filter (fun l => negb (blank l)) lines.
Proof. rewrite preorder_forest_by_parent. apply content_records. Qed.

Lemma crlf_lines_iff lines :
  (forest_by_parent (records lines)
   = forest_by_parent (records (remove_cr <$> lines))
   /\ names_avoid CR (forest_by_parent (records lines)))
  <-> (Forall (fun l => cr_free (trim l) = true) lines
       /\ forall k, parent_of (records lines) k
                  = parent_of (records (remove_cr <$> lines)) k).
Proof.
  unfold names_avoid. rewrite names_by_parent. split.
  - intros [Hf Hn]. split; [|now apply shape_parents].
    apply Forall_forall. intros line Hline.
    destruct (blank line) eqn:Hb; [now rewrite trim_blank|].
    apply cr_free_elem. rewrite Forall_forall in Hn. apply Hn.
    apply list_elem_of_fmap_2, list_elem_of_In, filter_In.
    split; [now apply list_elem_of_In|now rewrite Hb].
  - intros [Hcr Hp]. split.
    + pose proof (records_contents_remove_cr lines Hcr) as Hc.
      symmetry in Hc. unfold forest_by_parent.
      replace (length (records (remove_cr <$> lines)))
        with (length (records lines))
        by (apply (f_equal length) in Hc; now rewrite !length_fmap in Hc).
      now apply forest_under_ext.
    + apply Forall_forall. intros n Hn.
      apply list_elem_of_fmap in Hn as (line & -> & Hline).
      apply cr_free_elem. rewrite Forall_forall in Hcr. apply Hcr.
      apply list_elem_of_In, filter_In in Hline as [Hline _].
      now apply list_elem_of_In.
Qed.

Lemma parse_by_parent text :
  parse text = Some (forest_by_parent (records (split_nl text))).
Proof. apply buildTree_forest. Qed.

Lemma crlf_transparent_iff text :
  (parse text = parse (remove_cr text)
   /\ exists f, parse text = Some f /\ names_avoid CR f)
  <-> (Forall (fun l => cr_free (trim l) = true) (split_nl text)
       /\ forall k, parent_of (records (split_nl text)) k
                  = parent_of (records (split_nl (remove_cr text))) k).
Proof.
  rewrite split_nl_remove_cr, <- crlf_lines_iff.
  rewrite !parse_by_parent, split_nl_remove_cr. split.
  - intros [[= E] (f & [= <-] & Hn)]. now split.
  - intros [E Hn]. split; [now rewrite E|]. eexists. now split.
Qed.

Lemma crlf_trailing_ok text :
  Forall (fun l => cr_free (trimEnd l) = true) (split_nl text) ->
  parse text = parse (remove_cr text)
  /\ exists f, parse text = Some f /\ names_avoid CR f.
Proof.
  intros H.
  assert (records (remove_cr <$> split_nl text) = records (split_nl text)) as E.
  { induction H as [|l ls Hl _ IH]; [reflexivity|].
    unfold records in *. csimpl.
    now rewrite (parseLine_remove_trailing_cr l Hl), IH. }
  assert (parse text = parse (remove_cr text)) as Ep
    by now rewrite !parse_by_parent, split_nl_remove_cr, E.
  split; [exact Ep|].
  exists (forest_by_parent (records (split_nl text))).
  split; [apply parse_by_parent|].
  assert (parse (remove_cr text)
          = Some (forest_by_parent (records (split_nl text)))) as Hf
    by (rewrite <- Ep; apply parse_by_parent).
  apply Forall_forall. intros n Hn Hcr.
  apply list_elem_of_In in Hn, Hcr.
  pose proof (parse_names_from_text _ _ n CR Hf Hn Hcr) as Hin.
  apply filter_In in Hin as [_ Hne]. discriminate Hne.
Qed.

(** C10 (amended): for every text, parsing gives the same forest as parsing
    the text without its carriage returns, and no name holds a carriage
    return, exactly when no line has a carriage return between two of its
    characters that are not whitespace and taking the carriage returns out
    changes the parent of no record. Both are so, in particular, when every
    carriage return of the text lies in the trailing whitespace of its
    line. *)
Theorem crlf_transparent text :
  ((parse text = parse (remove_cr text)
    /\ exists f, parse text = Some f /\ names_avoid CR f)
   <-> (Forall (fun l => cr_free (trim l) = true) (split_nl text)
        /\ forall k, parent_of (records (split_nl text)) k
                   = parent_of (records (split_nl (remove_cr text))) k))
  /\ (Forall (fun l => cr_free (trimEnd l) = true) (split_nl text) ->
      parse text = parse (remove_cr text)
      /\ exists f, parse text = Some f /\ names_avoid CR f).
Proof. split; [apply crlf_transparent_iff|apply crlf_trailing_ok]. Qed.

Lemma crlf_transparent_witness :
  parse (joinLF [str "a" ++ [CR]; [CR; CR]; str "    b" ++ [CR; SP];
                 str "c" ++ [CR]])
  = parse (remove_cr
             (joinLF [str "a" ++ [CR]; [CR; CR]; str "    b" ++ [CR; SP];
                      str "c" ++ [CR]]))
  /\ exists f,
       parse (joinLF [str "a" ++ [CR]; [CR; CR]; str "    b" ++ [CR; SP];
                      str "c" ++ [CR]]) = Some f
       /\ names_avoid CR f.
Proof.
  apply (proj2 (crlf_transparent
                  (joinLF [str "a" ++ [CR]; [CR; CR]; str "    b" ++ [CR; SP];
                           str "c" ++ [CR]]))).
  repeat constructor.
Defined.

(** A carriage return among the leading whitespace that changes no parent:
    the forest is the same although the level is not. *)
Example crlf_leading_cr_harmless :
  parse (str "   " ++ CR :: str "a" ++ [CR; LF])
  = parse (remove_cr (str "   " ++ CR :: str "a" ++ [CR; LF]))
  /\ level <$> parseLine (str "   " ++ CR :: str "a" ++ [CR]) = Some 1
  /\ level <$> parseLine (remove_cr (str "   " ++ CR :: str "a" ++ [CR]))
     = Some 0.
Proof. repeat split; reflexivity. Qed.
